(** * Error recovery exercise: retry, configuration fallback, resilient batch processing

    A shallow embedding of [solutions/ex6_error_recovery.py]:
    - [Retry]: [retry_with_backoff], a bounded retry loop with exponential
      back-off;
    - [Config]: [ConfigManager], a JSON configuration with fall-back to
      built-in defaults, three-tier lookup and validation;
    - [Processor]: [DataProcessor], per-item error isolation with a
      cumulative error budget, over a store of dictionary objects.

    Logging has no influence on control flow or results.  It is left out,
    except for the per-item lines of [DataProcessor], which are kept as the
    record of which items were attempted; what the [logging] module does to
    write a line, reading the clock for its record included, is outside the
    model.  Durations, random draws and time stamps are exact rationals: the
    comparisons the program performs on them are modelled exactly, and
    rounding is outside the model.  The finite range of machine floats is
    modelled where the program runs into it: the conversion of
    [2 ** attempt] to a [float] in [retry_with_backoff], and the durations
    [time.sleep] accepts.  Exceptions are those derived from [Exception],
    the ones an [except Exception] clause catches. *)

From Stdlib Require Import ZArith QArith Qminmax Lia.
From stdpp Require Import base option list gmap strings pretty.

Local Open Scope Z_scope.

(** ** Python values *)

(** Machine floats as far as the program compares them: not-a-number, the two
    infinities, or a finite rational. *)
Inductive pyfloat :=
  | FNaN
  | FInf (negative : bool)
  | FFin (q : Q).

(** Addresses of mutable objects in the store. *)
Definition loc := nat.

(** The values that occur as configuration entries, as batch items and as
    dictionary entries.  Containers (dictionaries, lists) are objects in the
    store and are referred to by address. *)
Inductive pyval :=
  | VNone
  | VBool (b : bool)
  | VInt (z : Z)
  | VFloat (f : pyfloat)
  | VStr (s : string)
  | VRef (l : loc).

(** [v is not None] *)
Definition is_not_None (v : pyval) : bool :=
  match v with VNone => false | _ => true end.

(** [min(a, b)] on two arguments: the first one unless the second is strictly
    smaller. *)
Definition py_min (a b : Q) : Q :=
  match (b ?= a)%Q with Lt => b | _ => a end.

(** [range(n)] *)
Definition py_range (n : Z) : list Z := map Z.of_nat (seq 0 (Z.to_nat n)).

(** A number passed as a delay: an [int], or a finite [float] given by its
    exact value. *)
Inductive pynum :=
  | NInt (z : Z)
  | NFloat (q : Q).

Definition num_value (x : pynum) : Q :=
  match x with
  | NInt z => inject_Z z
  | NFloat q => q
  end.

(** [x * (2 ** k)] for [k >= 0]; [None] stands for [OverflowError].  With an
    [int] the product is an exact [int].  With a [float], [2 ** k] is first
    converted to a [float], which fails from [2 ** 1024] on; below that the
    product is exact, or the infinity when it exceeds the largest float, and
    the infinity compares with finite numbers as the exact product does. *)
Definition times_pow2 (x : pynum) (k : Z) : option Q :=
  match x with
  | NInt z => Some (inject_Z z * inject_Z (2 ^ k))%Q
  | NFloat q => if 1024 <=? k then None else Some (q * inject_Z (2 ^ k))%Q
  end.

(** ** [retry_with_backoff] *)

Module Retry.

(** What an observer of a run sees: invocations of the operation and calls of
    [time.sleep] with their argument, in the order they happen. *)
Inductive event :=
  | EvCall
  | EvSleep (d : Q).

Definition is_call (ev : event) : bool :=
  match ev with EvCall => true | EvSleep _ => false end.

Definition sleep_of (ev : event) : option Q :=
  match ev with EvCall => None | EvSleep d => Some d end.

(** Number of invocations of the operation recorded in a trace. *)
Definition calls (tr : list event) : nat := length (List.filter is_call tr).

(** The arguments of the [time.sleep] calls recorded in a trace, in order. *)
Definition sleeps (tr : list event) : list Q := omap sleep_of tr.

(** The largest duration the conversion of [time.sleep] takes: a 64-bit
    count of nanoseconds. *)
Definition conversion_limit : Q := 9223372036854775807 # 1000000000.

(** The longest sleep [time.sleep] accepts.  Beyond [conversion_limit] it
    raises [OverflowError]; below, what is accepted depends on the platform
    and its clock, which [sleep_limit] stands for; a day is always accepted. *)
Definition longest_sleep (sleep_limit : Q) : Q :=
  Qmax 86400 (Qmin sleep_limit conversion_limit).

(** The delay of line 75 can be computed for all attempts of a run of [n]
    attempts: pauses follow the attempts 0 to [n - 2], and a [float] base
    needs [2 ** attempt] to be a [float]. *)
Definition in_float_range (base_delay : pynum) (n : Z) : Prop :=
  match base_delay with
  | NInt _ => True
  | NFloat _ => n ≤ 1025
  end.

(** *** Concrete operations *)

(** An operation that fails twice and then succeeds: its state is the number
    of calls made so far. *)
Definition flaky (call_count : nat) : nat * (string + string) :=
  let call_count := S call_count in
  (call_count,
   if (call_count <? 3)%nat then inl "Simulated failure"%string else inr "success"%string).

(** An operation that always fails. *)
Definition always_failing (_ : unit) : unit * (string + string) :=
  (tt, inl "Always fails"%string).

Section RetryWithBackoff.
(** The operation is a zero-argument callable with side effects: it reads
    and updates some state of its own, and either returns a result or raises
    an exception (a subclass of [Exception]). *)
Context {World Result Exn : Type}.
Variable func : World → World * (Exn + Result).

(** What the platform lets [time.sleep] do (see [longest_sleep]). *)
Variable sleep_limit : Q.

(** How a run can end abnormally. *)
Inductive raised :=
  | Failure (e : Exn)          (* [raise last_exception] *)
  | TypeError_raise_None       (* [raise None]: no attempt was made *)
  | ValueError_sleep           (* [time.sleep] of a negative duration: [ValueError]
                                  ([OverflowError] when it is below the range of
                                  the conversion) *)
  | OverflowError_float        (* [2 ** attempt] is too large for a [float] *)
  | OverflowError_sleep.       (* [time.sleep] of too long a duration
                                  ([OverflowError], or [OSError] from the system;
                                  for an [int] beyond the floats the log line of
                                  line 76 raises [OverflowError] first) *)

Record machine := Machine { world : World; trace : list event }.

(** [time.sleep(delay)]: rejects a negative duration and one that is too
    long. *)
Definition time_sleep (delay : Q) (st : machine) : raised + machine :=
  if Qle_bool 0 delay then
    if Qle_bool delay (longest_sleep sleep_limit)
    then inr (Machine (world st) (trace st ++ [EvSleep delay]))
    else inl OverflowError_sleep
  else inl ValueError_sleep.

(** The body of [for attempt in range(max_attempts)] (lines 64-77), over the
    attempts still to run, followed by the statements after the loop
    (lines 79-80). *)
Fixpoint retry_loop (max_attempts : Z) (base_delay : pynum) (max_delay : Q)
    (attempts : list Z) (last_exception : option Exn) (st : machine)
    : machine * (raised + Result) :=
  match attempts with
  | [] =>
      (st, inl (match last_exception with
                | Some e => Failure e
                | None => TypeError_raise_None
                end))
  | attempt :: rest =>
      let '(w', r) := func (world st) in
      let st1 := Machine w' (trace st ++ [EvCall]) in
      match r with
      | inr result => (st1, inr result)
      | inl e =>
          if attempt <? max_attempts - 1 then
            match times_pow2 base_delay attempt with
            | None => (st1, inl OverflowError_float)
            | Some product =>
                let delay := py_min product max_delay in
                match time_sleep delay st1 with
                | inl err => (st1, inl err)
                | inr st2 => retry_loop max_attempts base_delay max_delay rest (Some e) st2
                end
            end
          else retry_loop max_attempts base_delay max_delay rest (Some e) st1
      end
  end.

(** [retry_with_backoff(func, max_attempts, base_delay, max_delay)], called
    when the operation is in state [w]. *)
Definition retry_with_backoff (max_attempts : Z) (base_delay : pynum) (max_delay : Q)
    (w : World) : machine * (raised + Result) :=
  retry_loop max_attempts base_delay max_delay (py_range max_attempts) None
    (Machine w []).

(** *** The operation seen as a sequence of calls *)

(** State of the operation after [i] invocations from [w]. *)
Fixpoint call_world (w : World) (i : nat) : World :=
  match i with
  | O => w
  | S j => fst (func (call_world w j))
  end.

(** Outcome of invocation number [i] (counted from 0). *)
Definition call_result (w : World) (i : nat) : Exn + Result :=
  snd (func (call_world w i)).

Definition fails_at (w : World) (i : nat) : Prop :=
  ∃ e, call_result w i = inl e.

(** *** The delay schedule of the specification *)

Definition backoff (base_delay : pynum) (max_delay : Q) (i : nat) : Q :=
  Qmin (num_value base_delay * inject_Z (2 ^ Z.of_nat i)) max_delay.

(** [m] failed attempts, numbers [i .. i+m-1], each followed by its pause. *)
Definition rounds (base_delay : pynum) (max_delay : Q) (i m : nat) : list event :=
  flat_map (λ j, [EvCall; EvSleep (backoff base_delay max_delay j)]) (seq i m).

(** The exception an outcome carries, if it is a failure. *)
Definition exn_of (r : Exn + Result) : option Exn :=
  match r with inl e => Some e | inr _ => None end.

(** [last_exception] after [k] failed attempts starting with attempt [i]. *)
Definition last_after (w : World) (last : option Exn) (i k : nat) : option Exn :=
  match k with
  | O => last
  | S k' => exn_of (call_result w (i + k'))
  end.

Lemma py_min_Qmin (a b : Q) : py_min a b = Qmin a b.
Proof.
  unfold py_min, Qmin, GenericMinMax.gmin.
  rewrite <- (Qcompare_antisym a b).
  destruct (a ?= b)%Q; reflexivity.
Qed.

Lemma py_min_nonneg (a b : Q) : (0 <= a)%Q → (0 <= b)%Q → (0 <= py_min a b)%Q.
Proof. intros Ha Hb. unfold py_min. destruct (b ?= a)%Q; assumption. Qed.

Lemma pow2_nonneg_Q (i : Z) : (0 <= inject_Z (2 ^ i))%Q.
Proof.
  change 0%Q with (inject_Z 0). rewrite <- Zle_Qle.
  destruct (Z_lt_le_dec i 0) as [Hneg | Hpos].
  - rewrite Z.pow_neg_r by assumption. lia.
  - apply Z.pow_nonneg. lia.
Qed.

Lemma backoff_nonneg b m i :
  (0 <= num_value b)%Q → (0 <= m)%Q → (0 <= backoff b m i)%Q.
Proof.
  intros Hb Hm. unfold backoff. rewrite <- py_min_Qmin.
  apply py_min_nonneg; [| assumption].
  apply Qmult_le_0_compat; [assumption | apply pow2_nonneg_Q].
Qed.

Lemma backoff_le_max b m i : (backoff b m i <= m)%Q.
Proof. unfold backoff. apply Q.le_min_r. Qed.

Lemma rounds_cons b m i k :
  rounds b m i (S k) = EvCall :: EvSleep (backoff b m i) :: rounds b m (S i) k.
Proof. reflexivity. Qed.

Lemma calls_app tr1 tr2 : calls (tr1 ++ tr2) = (calls tr1 + calls tr2)%nat.
Proof. unfold calls. rewrite List.filter_app, length_app. reflexivity. Qed.

Lemma sleeps_app tr1 tr2 : sleeps (tr1 ++ tr2) = sleeps tr1 ++ sleeps tr2.
Proof. unfold sleeps. apply omap_app. Qed.

Lemma calls_rounds b m i k : calls (rounds b m i k) = k.
Proof.
  revert i. induction k as [| k IH]; intros i; [reflexivity |].
  rewrite rounds_cons. unfold calls in *. simpl. f_equal. apply IH.
Qed.

Lemma sleeps_rounds b m i k : sleeps (rounds b m i k) = map (backoff b m) (seq i k).
Proof.
  revert i. induction k as [| k IH]; intros i; [reflexivity |].
  rewrite rounds_cons. unfold sleeps in *. simpl. f_equal. apply IH.
Qed.

(** Within the range of the floats the product of line 75 is exact. *)
Lemma times_pow2_in_range b n (j : nat) :
  in_float_range b n → Z.of_nat j < n - 1 →
  times_pow2 b (Z.of_nat j) = Some (num_value b * inject_Z (2 ^ Z.of_nat j))%Q.
Proof.
  intros Hrange Hj. destruct b as [z | q]; [reflexivity |].
  unfold times_pow2. simpl in Hrange.
  assert (Hlow : (1024 <=? Z.of_nat j) = false) by (apply Z.leb_gt; lia).
  rewrite Hlow. reflexivity.
Qed.

Lemma time_sleep_backoff b m i st :
  (0 <= num_value b)%Q → (0 <= m)%Q → (m <= longest_sleep sleep_limit)%Q →
  time_sleep (py_min (num_value b * inject_Z (2 ^ Z.of_nat i)) m) st
  = inr (Machine (world st) (trace st ++ [EvSleep (backoff b m i)])).
Proof.
  intros Hb Hm Hlim. unfold time_sleep. rewrite py_min_Qmin.
  fold (backoff b m i).
  assert (Hle : Qle_bool 0 (backoff b m i) = true).
  { apply Qle_bool_iff. apply backoff_nonneg; assumption. }
  assert (Hshort : Qle_bool (backoff b m i) (longest_sleep sleep_limit) = true).
  { apply Qle_bool_iff. eapply Qle_trans; [apply backoff_le_max | assumption]. }
  rewrite Hle, Hshort. reflexivity.
Qed.

(** A duration of at most a day is always slept. *)
Lemma time_sleep_short (delay : Q) st :
  (0 <= delay)%Q → (delay <= 86400)%Q →
  time_sleep delay st = inr (Machine (world st) (trace st ++ [EvSleep delay])).
Proof.
  intros Hpos Hday. unfold time_sleep.
  assert (Hle : Qle_bool 0 delay = true) by (apply Qle_bool_iff; assumption).
  assert (Hshort : Qle_bool delay (longest_sleep sleep_limit) = true).
  { apply Qle_bool_iff. eapply Qle_trans; [exact Hday |]. apply Q.le_max_l. }
  rewrite Hle, Hshort. reflexivity.
Qed.

(** Loop invariant: [k] failing attempts, none of them the last one, take the
    loop from attempt [i] to attempt [i + k], each followed by its pause. *)
Lemma retry_loop_failures n b m w :
  (0 <= num_value b)%Q → (0 <= m)%Q → (m <= longest_sleep sleep_limit)%Q →
  ∀ k i len last tr,
    (∀ j, (i ≤ j < i + k)%nat → fails_at w j) →
    Z.of_nat (i + k) ≤ n - 1 →
    in_float_range b (Z.of_nat (i + k) + 1) →
    retry_loop n b m (map Z.of_nat (seq i (k + len))) last
      (Machine (call_world w i) tr)
    = retry_loop n b m (map Z.of_nat (seq (i + k) len)) (last_after w last i k)
        (Machine (call_world w (i + k)) (tr ++ rounds b m i k)).
Proof.
  intros Hb Hm Hlim. induction k as [| k IH]; intros i len last tr Hfail Hbound Hrange.
  - rewrite Nat.add_0_r. simpl. rewrite app_nil_r. reflexivity.
  - destruct (Hfail i ltac:(lia)) as [e He].
    unfold call_result in He.
    cbn [Nat.add seq map retry_loop world trace].
    destruct (func (call_world w i)) as [w' r] eqn:Hcall.
    simpl in He. subst r.
    assert (Hlt : (Z.of_nat i <? n - 1) = true) by (apply Z.ltb_lt; lia).
    rewrite Hlt.
    rewrite (times_pow2_in_range b (Z.of_nat (i + S k) + 1) i Hrange) by lia.
    cbv zeta.
    rewrite time_sleep_backoff by assumption.
    cbn [world trace].
    assert (Hw : w' = call_world w (S i)) by (simpl; rewrite Hcall; reflexivity).
    rewrite Hw.
    rewrite (IH (S i) len (Some e)).
    + replace (S i + k)%nat with (i + S k)%nat by lia.
      f_equal.
      * destruct k as [| k']; simpl.
        -- unfold call_result. rewrite Nat.add_0_r, Hcall. reflexivity.
        -- replace (i + S k')%nat with (S (i + k'))%nat by lia. reflexivity.
      * rewrite rounds_cons, <- !app_assoc. reflexivity.
    + intros j Hj. apply Hfail. lia.
    + lia.
    + replace (S i + k)%nat with (i + S k)%nat by lia. assumption.
Qed.

(** A run in which the first [k] attempts fail and more attempts remain
    arrives at attempt [k] with the expected trace. *)
Lemma retry_prefix n b m w k :
  (0 <= num_value b)%Q → (0 <= m)%Q → (m <= longest_sleep sleep_limit)%Q →
  (k < Z.to_nat n)%nat →
  in_float_range b (Z.of_nat k + 1) →
  (∀ j, (j < k)%nat → fails_at w j) →
  retry_with_backoff n b m w
  = retry_loop n b m (map Z.of_nat (seq k (Z.to_nat n - k))) (last_after w None 0 k)
      (Machine (call_world w k) (rounds b m 0 k)).
Proof.
  intros Hb Hm Hlim Hk Hrange Hfail. unfold retry_with_backoff, py_range.
  replace (Z.to_nat n) with (k + (Z.to_nat n - k))%nat at 1 by lia.
  change w with (call_world w 0) at 1.
  rewrite (retry_loop_failures n b m w Hb Hm Hlim k 0 (Z.to_nat n - k) None []).
  - reflexivity.
  - intros j Hj. apply Hfail. lia.
  - lia.
  - assumption.
Qed.

Lemma in_float_range_mono b n n' : n' ≤ n → in_float_range b n → in_float_range b n'.
Proof. intros Hle. destruct b; simpl; [auto | lia]. Qed.

(** Exhaustion: all [n] attempts fail. *)
Lemma retry_exhausted n b m w e :
  1 ≤ n → (0 <= num_value b)%Q → (0 <= m)%Q → (m <= longest_sleep sleep_limit)%Q →
  in_float_range b n →
  (∀ i, (i < Z.to_nat n)%nat → fails_at w i) →
  call_result w (Z.to_nat n - 1) = inl e →
  retry_with_backoff n b m w
  = (Machine (call_world w (Z.to_nat n)) (rounds b m 0 (Z.to_nat n - 1) ++ [EvCall]),
     inl (Failure e)).
Proof.
  intros Hn Hb Hm Hlim Hrange Hfail Hlast.
  rewrite (retry_prefix n b m w (Z.to_nat n - 1));
    [| assumption | assumption | assumption | lia
     | eapply in_float_range_mono; [| eassumption]; lia
     | intros; apply Hfail; lia].
  replace (Z.to_nat n - (Z.to_nat n - 1))%nat with 1%nat by lia.
  cbn [seq map retry_loop world trace].
  unfold call_result in Hlast.
  destruct (func (call_world w (Z.to_nat n - 1))) as [w' r] eqn:Hcall.
  simpl in Hlast. subst r.
  assert (Hge : (Z.of_nat (Z.to_nat n - 1) <? n - 1) = false) by (apply Z.ltb_ge; lia).
  rewrite Hge. do 2 f_equal.
  replace (Z.to_nat n) with (S (Z.to_nat n - 1)) at 1 by lia.
  simpl. rewrite Hcall. reflexivity.
Qed.

(** Success on call number [k] (counted from 1). *)
Lemma retry_succeeds n b m w k a :
  (0 <= num_value b)%Q → (0 <= m)%Q → (m <= longest_sleep sleep_limit)%Q →
  (1 ≤ k ≤ Z.to_nat n)%nat →
  in_float_range b (Z.of_nat k) →
  (∀ i, (i < k - 1)%nat → fails_at w i) →
  call_result w (k - 1) = inr a →
  retry_with_backoff n b m w
  = (Machine (call_world w k) (rounds b m 0 (k - 1) ++ [EvCall]), inr a).
Proof.
  intros Hb Hm Hlim Hk Hrange Hfail Hok.
  rewrite (retry_prefix n b m w (k - 1));
    [| assumption | assumption | assumption | lia
     | eapply in_float_range_mono; [| eassumption]; lia
     | assumption].
  replace (Z.to_nat n - (k - 1))%nat with (S (Z.to_nat n - k)) by lia.
  cbn [seq map retry_loop world trace].
  unfold call_result in Hok.
  destruct (func (call_world w (k - 1))) as [w' r] eqn:Hcall.
  simpl in Hok. subst r. do 2 f_equal.
  replace k with (S (k - 1)) at 1 by lia.
  simpl. rewrite Hcall. reflexivity.
Qed.

(** Beyond the range of the floats: with a [float] base and 1026 attempts or
    more, the delay after the failed attempt number 1024 cannot be computed,
    and the run ends there with [OverflowError]. *)
Lemma retry_overflows n q m w :
  1026 ≤ n → (0 <= q)%Q → (0 <= m)%Q → (m <= longest_sleep sleep_limit)%Q →
  (∀ i, (i < Z.to_nat 1025)%nat → fails_at w i) →
  retry_with_backoff n (NFloat q) m w
  = (Machine (call_world w (Z.to_nat 1025))
       (rounds (NFloat q) m 0 (Z.to_nat 1024) ++ [EvCall]),
     inl OverflowError_float).
Proof.
  intros Hn Hq Hm Hlim Hfail.
  rewrite (retry_prefix n (NFloat q) m w (Z.to_nat 1024));
    [| assumption | assumption | assumption | lia | simpl; lia
     | intros; apply Hfail; lia].
  replace (Z.to_nat n - Z.to_nat 1024)%nat with (S (Z.to_nat n - Z.to_nat 1025)) by lia.
  cbn [seq map retry_loop world trace].
  destruct (Hfail (Z.to_nat 1024) ltac:(lia)) as [e He].
  unfold call_result in He.
  destruct (func (call_world w (Z.to_nat 1024))) as [w' r] eqn:Hcall.
  simpl in He. subst r.
  assert (Hlt : (Z.of_nat (Z.to_nat 1024) <? n - 1) = true) by (apply Z.ltb_lt; lia).
  rewrite Hlt. unfold times_pow2.
  assert (Hbig : (1024 <=? Z.of_nat (Z.to_nat 1024)) = true) by (apply Z.leb_le; lia).
  rewrite Hbig. do 2 f_equal.
  replace (Z.to_nat 1025) with (S (Z.to_nat 1024)) by lia.
  cbn [call_world]. rewrite Hcall. reflexivity.
Qed.

(** C1 (the code does not meet the claim for a [float] [base_delay] and 1026
    attempts or more).  For [max_attempts = n ≥ 1] and a policy whose
    durations are not negative and can be slept: as long as the delays can be
    computed (an [int] [base_delay], or at most 1025 attempts),
    [retry_with_backoff] invokes the operation until its first success or
    until [n] failures.  If all [n] calls fail, the operation is invoked
    exactly [n] times and the exception raised is the one of the [n]-th call;
    if the first success is call number [k ≤ n], it is invoked exactly [k]
    times, the result of that call is returned, and the last thing that
    happened is that call.  With a [float] [base_delay] and [n ≥ 1026], an
    operation that fails on its first 1025 calls is invoked 1025 times only:
    the delay after attempt number 1024 needs [2 ** 1024] as a [float], and
    the run ends with that [OverflowError], not with the operation's
    exception. *)
Theorem retry_invokes_until_success_or_exhaustion
    (n : Z) (base_delay : pynum) (max_delay : Q) (w : World) :
  1 ≤ n → (0 <= num_value base_delay)%Q → (0 <= max_delay)%Q →
  (max_delay <= longest_sleep sleep_limit)%Q →
  let run := retry_with_backoff n base_delay max_delay w in
  (∀ e, in_float_range base_delay n →
        (∀ i, (i < Z.to_nat n)%nat → fails_at w i) →
        call_result w (Z.to_nat n - 1) = inl e →
        snd run = inl (Failure e) ∧ calls (trace (fst run)) = Z.to_nat n)
  ∧
  (∀ k a, (1 ≤ k ≤ Z.to_nat n)%nat →
        in_float_range base_delay (Z.of_nat k) →
        (∀ i, (i < k - 1)%nat → fails_at w i) →
        call_result w (k - 1) = inr a →
        snd run = inr a ∧ calls (trace (fst run)) = k
        ∧ last (trace (fst run)) = Some EvCall
        ∧ length (sleeps (trace (fst run))) = (k - 1)%nat)
  ∧
  (∀ q, base_delay = NFloat q → 1026 ≤ n →
        (∀ i, (i < Z.to_nat 1025)%nat → fails_at w i) →
        snd run = inl OverflowError_float
        ∧ calls (trace (fst run)) = Z.to_nat 1025).
Proof.
  intros Hn Hb Hm Hlim run. subst run. split; [| split].
  - intros e Hrange Hfail Hlast.
    rewrite (retry_exhausted n base_delay max_delay w e) by assumption.
    cbn [fst snd trace]. split; [reflexivity |].
    rewrite calls_app, calls_rounds. unfold calls. simpl. lia.
  - intros k a Hk Hrange Hfail Hok.
    rewrite (retry_succeeds n base_delay max_delay w k a) by assumption.
    cbn [fst snd trace]. split; [reflexivity |].
    split; [rewrite calls_app, calls_rounds; unfold calls; simpl; lia |].
    split; [apply last_snoc |].
    rewrite sleeps_app, length_app, sleeps_rounds, length_map, length_seq.
    simpl. lia.
  - intros q -> Hbig Hfail.
    rewrite (retry_overflows n q max_delay w) by assumption.
    cbn [fst snd trace]. split; [reflexivity |].
    rewrite calls_app, calls_rounds. unfold calls. cbn [List.filter is_call length]. lia.
Qed.

(** C2 (the code does not meet the claim for a [float] [base_delay] and 1026
    attempts or more).  Against an operation that fails on each of its
    [n ≥ 1] calls, with durations that are not negative and can be slept: as
    long as the delays can be computed (an [int] [base_delay], or at most
    1025 attempts), the run is attempt, pause, attempt, ..., attempt, with
    exactly [n - 1] pauses, pause number [i] (counted from 0, the one before
    attempt [i + 2]) lasting [min (base_delay * 2^i) max_delay], and nothing
    after the last attempt; with 3 attempts, base 1.0 and cap 60.0 the pauses
    are 1 then 2.  With a [float] [base_delay] and [n ≥ 1026] the run makes
    the first 1024 of these pauses and ends at attempt number 1024 with the
    [OverflowError] of [2 ** 1024]: there are 1024 pauses, not [n - 1]. *)
Theorem retry_backoff_schedule (n : Z) (base_delay : pynum) (max_delay : Q) (w : World) :
  1 ≤ n → (0 <= num_value base_delay)%Q → (0 <= max_delay)%Q →
  (max_delay <= longest_sleep sleep_limit)%Q →
  (∀ i, (i < Z.to_nat n)%nat → fails_at w i) →
  let run := retry_with_backoff n base_delay max_delay w in
  let tr := trace (fst run) in
  (in_float_range base_delay n →
     tr = rounds base_delay max_delay 0 (Z.to_nat n - 1) ++ [EvCall]
     ∧ length (sleeps tr) = (Z.to_nat n - 1)%nat
     ∧ (∀ i, (i < Z.to_nat n - 1)%nat →
          sleeps tr !! i
          = Some (Qmin (num_value base_delay * inject_Z (2 ^ Z.of_nat i)) max_delay))
     ∧ last tr = Some EvCall
     ∧ (n = 3 → base_delay = NFloat 1 → max_delay = 60%Q → sleeps tr = [1%Q; 2%Q]))
  ∧
  (∀ q, base_delay = NFloat q → 1026 ≤ n →
     snd run = inl OverflowError_float
     ∧ tr = rounds base_delay max_delay 0 (Z.to_nat 1024) ++ [EvCall]
     ∧ length (sleeps tr) = Z.to_nat 1024
     ∧ (∀ i, (i < Z.to_nat 1024)%nat →
          sleeps tr !! i
          = Some (Qmin (num_value base_delay * inject_Z (2 ^ Z.of_nat i)) max_delay))).
Proof.
  intros Hn Hb Hm Hlim Hfail run tr. split.
  - intros Hrange.
    destruct (Hfail (Z.to_nat n - 1)%nat ltac:(lia)) as [e He].
    assert (Htr : tr = rounds base_delay max_delay 0 (Z.to_nat n - 1) ++ [EvCall]).
    { subst tr run. rewrite (retry_exhausted n base_delay max_delay w e) by assumption.
      reflexivity. }
    assert (Hsl : sleeps tr = map (backoff base_delay max_delay) (seq 0 (Z.to_nat n - 1))).
    { rewrite Htr, sleeps_app, sleeps_rounds. simpl. apply app_nil_r. }
    split; [exact Htr |].
    split; [rewrite Hsl, length_map, length_seq; reflexivity |].
    split.
    { intros i Hi. rewrite Hsl, list_lookup_fmap, lookup_seq_lt by assumption.
      reflexivity. }
    split; [rewrite Htr; apply last_snoc |].
    intros -> -> ->. rewrite Hsl. reflexivity.
  - intros q Hq Hbig. subst base_delay.
    assert (Hrun : run = (Machine (call_world w (Z.to_nat 1025))
                            (rounds (NFloat q) max_delay 0 (Z.to_nat 1024) ++ [EvCall]),
                          inl OverflowError_float)).
    { subst run. apply retry_overflows; try assumption. intros i Hi. apply Hfail. lia. }
    assert (Hsl : sleeps tr
                  = map (backoff (NFloat q) max_delay) (seq 0 (Z.to_nat 1024))).
    { subst tr. rewrite Hrun. cbn [fst trace].
      rewrite sleeps_app, sleeps_rounds. cbn [sleeps omap sleep_of]. apply app_nil_r. }
    split; [rewrite Hrun; reflexivity |].
    split; [subst tr; rewrite Hrun; reflexivity |].
    split; [rewrite Hsl, length_map, length_seq; reflexivity |].
    intros i Hi. rewrite Hsl, list_lookup_fmap, lookup_seq_lt by assumption.
    reflexivity.
Qed.

End RetryWithBackoff.

Lemma retry_invokes_until_success_or_exhaustion_witness :
  let run := retry_with_backoff always_failing 0 1026 (NFloat 1) 0 tt in
  snd run = inl OverflowError_float
  ∧ calls (trace (fst run)) = Z.to_nat 1025.
Proof.
  refine (proj2 (proj2 (retry_invokes_until_success_or_exhaustion always_failing 0
                          1026 (NFloat 1) 0 tt _ _ _ _)) 1%Q eq_refl _ _).
  - lia.
  - apply Qle_bool_iff. reflexivity.
  - apply Qle_bool_iff. reflexivity.
  - apply Qle_bool_iff. reflexivity.
  - lia.
  - intros i _. eexists. reflexivity.
Defined.

Lemma retry_backoff_schedule_witness :
  sleeps (trace (fst (retry_with_backoff always_failing 0 3 (NFloat 1) 60 tt)))
  = [1%Q; 2%Q].
Proof.
  refine (proj2 (proj2 (proj2 (proj2 (proj1
            (retry_backoff_schedule always_failing 0 3 (NFloat 1) 60 tt _ _ _ _ _) _))))
            _ _ _);
    try reflexivity.
  - lia.
  - apply Qle_bool_iff. reflexivity.
  - apply Qle_bool_iff. reflexivity.
  - apply Qle_bool_iff. reflexivity.
  - intros i _. eexists. reflexivity.
  - simpl. lia.
Defined.

End Retry.

(** ** [ConfigManager] *)

Module Config.

Local Open Scope string_scope.
Local Open Scope list_scope.
Local Open Scope Z_scope.

(** Exceptions (subclasses of [Exception]) that loading can raise. *)
Inductive exn :=
  | FileNotFoundError        (* [open]: no such file *)
  | JSONDecodeError          (* [json.load]: the text is not JSON *)
  | AttributeError           (* [.get] on an object that has no such method *)
  | OtherError (name : string).  (* [PermissionError], [UnicodeDecodeError], ... *)

(** A parsed JSON document: an object, which [json.load] turns into a
    dictionary, or any other JSON value (array, string, number, [true],
    [false], [null]). *)
Inductive json_doc :=
  | JObject (d : gmap string pyval)
  | JOther (v : pyval).

(** [self.defaults] as set by [__init__]. *)
Definition builtin_defaults : gmap string pyval :=
  <["database_url" := VStr "sqlite:///default.db"]>
  (<["cache_size" := VInt 100]>
  (<["timeout" := VInt 30]>
  (<["debug" := VBool false]> ∅))).

(** An instance.  Between the assignment [self.config = json.load(f)] and the
    end of [_load_config] the attribute may hold a non-dictionary; that
    interval is inside [load_body] below, and [config] is a dictionary in
    every instance a caller gets to see. *)
Record ConfigManager := Build_ConfigManager {
  config_file : string;
  config : gmap string pyval;
  defaults : gmap string pyval
}.

(** [d.get(key)]: the entry, or [None] when there is none. *)
Definition dict_get (d : gmap string pyval) (key : string) : pyval :=
  default VNone (d !! key).

(** The integer a value is when [isinstance(v, int)] holds; [bool] is a
    subclass of [int]. *)
Definition int_value (v : pyval) : option Z :=
  match v with
  | VInt z => Some z
  | VBool b => Some (Z.b2z b)
  | _ => None
  end.

(** [isinstance(v, int)] *)
Definition isinstance_int (v : pyval) : bool :=
  match int_value v with Some _ => true | None => false end.

(** [isinstance(v, (int, float))] *)
Definition isinstance_int_float (v : pyval) : bool :=
  match v with
  | VFloat _ => true
  | _ => isinstance_int v
  end.

(** [isinstance(v, bool)] *)
Definition isinstance_bool (v : pyval) : bool :=
  match v with VBool _ => true | _ => false end.

(** [v < 1], evaluated only when [v] is an [int]. *)
Definition lt_1 (v : pyval) : bool :=
  match int_value v with Some z => (z <? 1)%Z | None => false end.

(** [f <= 0] on floats: false for not-a-number. *)
Definition float_le_0 (f : pyfloat) : bool :=
  match f with
  | FNaN => false
  | FInf negative => negative
  | FFin q => Qle_bool q 0
  end.

(** [v <= 0], evaluated only when [v] is an [int] or a [float]. *)
Definition le_0 (v : pyval) : bool :=
  match v with
  | VFloat f => float_le_0 f
  | _ => match int_value v with Some z => (z <=? 0)%Z | None => false end
  end.

Definition issue_cache_size : string := "cache_size must be a positive integer".
Definition issue_timeout : string := "timeout must be a positive number".
Definition issue_debug : string := "debug must be a boolean".

(** [validate_config] (lines 148-174), on the dictionary held in
    [self.config]. *)
Definition validate_config (cfg : gmap string pyval) : list string :=
  let issues := [] in
  let cache_size := dict_get cfg "cache_size" in
  let issues :=
    if is_not_None cache_size then
      if negb (isinstance_int cache_size) || lt_1 cache_size
      then issues ++ [issue_cache_size] else issues
    else issues in
  let timeout := dict_get cfg "timeout" in
  let issues :=
    if is_not_None timeout then
      if negb (isinstance_int_float timeout) || le_0 timeout
      then issues ++ [issue_timeout] else issues
    else issues in
  let debug := dict_get cfg "debug" in
  let issues :=
    if is_not_None debug && negb (isinstance_bool debug)
    then issues ++ [issue_debug] else issues in
  issues.

(** [get(key, fallback=None)] (lines 123-146) *)
Definition get (m : ConfigManager) (key : string) (fallback : pyval) : pyval :=
  match config m !! key with
  | Some v => v
  | None =>
      if is_not_None fallback then fallback
      else match defaults m !! key with
           | Some v => v
           | None => VNone
           end
  end.

(** [needle in text] on strings. *)
Definition mentions (needle text : string) : bool :=
  match String.index 0 needle text with Some _ => true | None => false end.

(** The fallback a caller supplied: [None] is what [get] receives when the
    caller supplies nothing. *)
Definition supplied (fallback : pyval) : option pyval :=
  match fallback with VNone => None | v => Some v end.

(** *** Validation *)

(** The three checks of [validate_config], each on the entry it reads. *)
Definition cache_size_rejected (v : pyval) : bool :=
  is_not_None v && (negb (isinstance_int v) || lt_1 v).

Definition timeout_rejected (v : pyval) : bool :=
  is_not_None v && (negb (isinstance_int_float v) || le_0 v).

Definition debug_rejected (v : pyval) : bool :=
  is_not_None v && negb (isinstance_bool v).

Definition issue_if (rejected : bool) (issue : string) : list string :=
  if rejected then [issue] else [].

(** What the specification asks of the three entries. *)
Definition positive_integer (v : pyval) : Prop :=
  ∃ z, v = VInt z ∧ 0 < z.

Definition positive_number (v : pyval) : Prop :=
  (∃ z, v = VInt z ∧ 0 < z) ∨ (∃ q, v = VFloat (FFin q) ∧ (0 < q)%Q).

Definition boolean (v : pyval) : Prop :=
  ∃ b, v = VBool b.

Definition passes_or_absent (P : pyval → Prop) (entry : option pyval) : Prop :=
  match entry with
  | Some v => P v
  | None => True
  end.

(** The configuration of the validation test. *)
Definition invalid_config_data : gmap string pyval :=
  <["cache_size" := VInt (-10)]>
  (<["timeout" := VStr "30"]>
  (<["debug" := VStr "yes"]> ∅)).

Section Loading.
(** The file system and the JSON parser: what [open(path, 'r')] followed by
    [json.load] yields for a path. *)
Variable read_json : string → exn + json_doc.

(** The [try] block of [_load_config] (lines 101-109). *)
Definition load_body (m : ConfigManager) : exn + ConfigManager :=
  match read_json (config_file m) with
  | inl e => inl e
  | inr (JObject d) =>
      (* [self.config = d]; the issues found are only logged *)
      let m' := Build_ConfigManager (config_file m) d (defaults m) in
      let issues := validate_config (config m') in
      inr m'
  | inr (JOther _) =>
      (* [self.config.get] does not exist on a list, string, number or None *)
      inl AttributeError
  end.

(** [_load_config]: the [try] block under its three handlers
    (lines 111-121). *)
Definition _load_config (m : ConfigManager) : exn + ConfigManager :=
  match load_body m with
  | inr m' => inr m'
  | inl FileNotFoundError =>
      inr (Build_ConfigManager (config_file m) (defaults m) (defaults m))
  | inl JSONDecodeError =>
      inr (Build_ConfigManager (config_file m) (defaults m) (defaults m))
  | inl _ =>
      inr (Build_ConfigManager (config_file m) (defaults m) (defaults m))
  end.

(** [ConfigManager(config_file)] (lines 88-97) *)
Definition new (file : string) : exn + ConfigManager :=
  _load_config (Build_ConfigManager file ∅ builtin_defaults).

(** Loading fails when the [try] block raises. *)
Definition load_fails (file : string) : Prop :=
  ∃ e, load_body (Build_ConfigManager file ∅ builtin_defaults) = inl e.

Lemma load_fails_iff file :
  load_fails file ↔ ∀ d, read_json file ≠ inr (JObject d).
Proof.
  unfold load_fails, load_body. cbn [config_file].
  destruct (read_json file) as [e | [d | v]].
  - split; [intros _ d; discriminate | intros _; eauto].
  - split; [intros [e He]; discriminate | intros H; destruct (H d); reflexivity].
  - split; [intros _ d; discriminate | intros _; eauto].
Qed.

Lemma new_after_failure file :
  load_fails file →
  new file = inr (Build_ConfigManager file builtin_defaults builtin_defaults).
Proof.
  intros [e He]. unfold new, _load_config. rewrite He.
  destruct e; reflexivity.
Qed.

Lemma get_of_defaults file k v fallback :
  builtin_defaults !! k = Some v →
  get (Build_ConfigManager file builtin_defaults builtin_defaults) k fallback = v.
Proof. intros Hk. unfold get. cbn [config]. rewrite Hk. reflexivity. Qed.

(** C3.  Constructing a [ConfigManager] always yields an instance, whatever
    the source: no exception of the load reaches the caller.  Whenever the
    load fails (the file does not exist, its content is not JSON, any other
    exception, or the document is not an object) the active configuration is
    a copy of the built-in defaults, so [get] answers every default key with
    its built-in value; and an instance built from a missing file and one
    built from an invalid file hold the same configuration and answer every
    [get] and [validate_config] alike. *)
Theorem construction_falls_back_to_defaults (file : string) :
  ∃ m, new file = inr m
    ∧ defaults m = builtin_defaults
    ∧ (∀ e, read_json file = inl e → load_fails file)
    ∧ (∀ v, read_json file = inr (JOther v) → load_fails file)
    ∧ (load_fails file →
         config m = builtin_defaults
         ∧ ∀ k v fallback, builtin_defaults !! k = Some v → get m k fallback = v)
    ∧ (∀ file' m',
         read_json file = inl FileNotFoundError →
         read_json file' = inl JSONDecodeError →
         new file' = inr m' →
         config m' = config m ∧ defaults m' = defaults m
         ∧ validate_config (config m') = validate_config (config m)
         ∧ ∀ k fallback, get m' k fallback = get m k fallback).
Proof.
  assert (Hexn : ∀ f e, read_json f = inl e → load_fails f).
  { intros f e He. apply load_fails_iff. intros d Hd. congruence. }
  assert (Hother : ∀ f v, read_json f = inr (JOther v) → load_fails f).
  { intros f v Hv. apply load_fails_iff. intros d Hd. congruence. }
  destruct (read_json file) as [e | [d | v]] eqn:Hread.
  - exists (Build_ConfigManager file builtin_defaults builtin_defaults).
    split; [apply new_after_failure; eauto |].
    split; [reflexivity |].
    split; [intros e' _; eauto |].
    split; [intros v' Hv'; discriminate |].
    split.
    + intros _. split; [reflexivity |]. intros k v fb. apply get_of_defaults.
    + intros file' m' _ Hbad Hnew.
      rewrite new_after_failure in Hnew by eauto.
      injection Hnew as <-. repeat split; reflexivity.
  - exists (Build_ConfigManager file d builtin_defaults).
    split; [unfold new, _load_config, load_body; cbn [config_file]; rewrite Hread; reflexivity |].
    split; [reflexivity |].
    split; [intros e' He'; discriminate |].
    split; [intros v' Hv'; discriminate |].
    split.
    + intros Hfail. destruct (proj1 (load_fails_iff file) Hfail d). assumption.
    + intros file' m' Hmiss. discriminate.
  - exists (Build_ConfigManager file builtin_defaults builtin_defaults).
    split; [apply new_after_failure; eauto |].
    split; [reflexivity |].
    split; [intros e' He'; discriminate |].
    split; [intros v' _; eauto |].
    split.
    + intros _. split; [reflexivity |]. intros k v' fb. apply get_of_defaults.
    + intros file' m' Hmiss. discriminate.
Qed.

End Loading.

(** C7.  [get] resolves a key through the loaded configuration, then the
    fallback the caller supplied, then the defaults, and ends in [None]: the
    first tier that has a value answers. *)
Theorem get_three_tiers (m : ConfigManager) (key : string) (fallback : pyval) :
  get m key fallback
  = default VNone (config m !! key ∪ supplied fallback ∪ defaults m !! key)
  ∧ (∀ v, config m !! key = Some v → get m key fallback = v)
  ∧ (config m !! key = None → fallback ≠ VNone → get m key fallback = fallback)
  ∧ (∀ v, config m !! key = None → fallback = VNone →
          defaults m !! key = Some v → get m key fallback = v)
  ∧ (config m !! key = None → fallback = VNone →
     defaults m !! key = None → get m key fallback = VNone).
Proof.
  unfold get. repeat split.
  - destruct (config m !! key) as [v |], fallback, (defaults m !! key); reflexivity.
  - intros v ->. reflexivity.
  - intros -> Hfb. destruct fallback; [congruence | reflexivity ..].
  - intros v -> -> ->. reflexivity.
  - intros -> -> ->. reflexivity.
Qed.

Lemma validate_config_unfold cfg :
  validate_config cfg
  = issue_if (cache_size_rejected (dict_get cfg "cache_size")) issue_cache_size
    ++ issue_if (timeout_rejected (dict_get cfg "timeout")) issue_timeout
    ++ issue_if (debug_rejected (dict_get cfg "debug")) issue_debug.
Proof.
  unfold validate_config, cache_size_rejected, timeout_rejected, debug_rejected, issue_if.
  destruct (is_not_None (dict_get cfg "cache_size"));
    destruct (is_not_None (dict_get cfg "timeout"));
    destruct (is_not_None (dict_get cfg "debug"));
    cbn [andb];
    repeat match goal with |- context [if ?b then _ else _] => destruct b end;
    reflexivity.
Qed.

Lemma positive_integer_accepted v :
  positive_integer v → cache_size_rejected v = false.
Proof.
  intros (z & -> & Hz). unfold cache_size_rejected, lt_1. simpl.
  apply Z.ltb_ge. lia.
Qed.

Lemma positive_number_accepted v :
  positive_number v → timeout_rejected v = false.
Proof.
  intros [(z & -> & Hz) | (q & -> & Hq)]; unfold timeout_rejected, le_0; simpl.
  - apply Z.leb_gt. assumption.
  - destruct (Qle_bool q 0) eqn:Hle; [| reflexivity].
    apply Qle_bool_iff in Hle. exfalso. apply (Qlt_not_le _ _ Hq). exact Hle.
Qed.

Lemma boolean_accepted v : boolean v → debug_rejected v = false.
Proof. intros (b & ->). reflexivity. Qed.

Lemma rejected_absent (rejected : pyval → bool) (P : pyval → Prop) cfg key :
  rejected VNone = false →
  (∀ v, P v → rejected v = false) →
  passes_or_absent P (cfg !! key) → rejected (dict_get cfg key) = false.
Proof.
  intros Hnone Hok. unfold dict_get.
  destruct (cfg !! key) as [v |]; simpl; auto.
Qed.

Lemma cache_size_rejected_iff v :
  cache_size_rejected v = true ↔ v ≠ VNone ∧ ∀ z, int_value v = Some z → z < 1.
Proof.
  unfold cache_size_rejected, isinstance_int, lt_1.
  destruct v as [| b | z | f | s | l]; simpl.
  - split; [discriminate | intros [H _]; congruence].
  - destruct b; simpl; (split; [intros H | intros [_ H]]).
    + discriminate.
    + specialize (H 1 eq_refl). lia.
    + split; [discriminate | intros z [= <-]; lia].
    + reflexivity.
  - rewrite Z.ltb_lt. split.
    + intros Hz. split; [discriminate | intros ? [= <-]; assumption].
    + intros [_ H]. apply H. reflexivity.
  - split; [intros _; split; [discriminate | discriminate] | reflexivity].
  - split; [intros _; split; [discriminate | discriminate] | reflexivity].
  - split; [intros _; split; [discriminate | discriminate] | reflexivity].
Qed.

Lemma debug_rejected_iff v :
  debug_rejected v = true ↔ v ≠ VNone ∧ ∀ b, v ≠ VBool b.
Proof.
  unfold debug_rejected. destruct v; simpl; split;
    try discriminate; try reflexivity;
    try (intros _; split; intros; discriminate).
  - intros [H _]. congruence.
  - intros [_ H]. destruct (H b). reflexivity.
Qed.

Lemma timeout_rejected_iff v :
  timeout_rejected v = true
  ↔ v ≠ VNone
    ∧ (∀ z, int_value v = Some z → z ≤ 0)
    ∧ (∀ f, v = VFloat f → float_le_0 f = true).
Proof.
  unfold timeout_rejected, isinstance_int_float, isinstance_int, le_0.
  destruct v as [| b | z | f | s | l]; simpl.
  - split; [discriminate | intros [H _]; congruence].
  - destruct b; simpl; split.
    + discriminate.
    + intros (_ & H & _). specialize (H 1 eq_refl). lia.
    + intros _. repeat split; [discriminate | intros z [= <-]; lia | discriminate].
    + reflexivity.
  - rewrite Z.leb_le. split.
    + intros Hz. repeat split; [discriminate | intros ? [= <-]; assumption | discriminate].
    + intros (_ & H & _). apply H. reflexivity.
  - split.
    + intros Hf. repeat split; [discriminate | discriminate | intros ? [= <-]; assumption].
    + intros (_ & _ & H). apply H. reflexivity.
  - split; [intros _; repeat split; discriminate | reflexivity].
  - split; [intros _; repeat split; discriminate | reflexivity].
Qed.

Lemma dict_get_present cfg key (P : pyval → Prop) :
  (dict_get cfg key ≠ VNone ∧ P (dict_get cfg key))
  ↔ ∃ v, cfg !! key = Some v ∧ v ≠ VNone ∧ P v.
Proof.
  unfold dict_get. destruct (cfg !! key) as [v |]; simpl.
  - split; [intros [? ?]; eauto | intros (? & [= <-] & ? & ?); auto].
  - split; [intros [H _]; congruence | intros (? & [=] & _)].
Qed.

Lemma issue_if_elem rejected issue (x : string) :
  x ∈ issue_if rejected issue ↔ rejected = true ∧ x = issue.
Proof.
  unfold issue_if. destruct rejected.
  - rewrite list_elem_of_singleton. split; [intros ->; split; reflexivity | intros [_ ->]; reflexivity].
  - rewrite elem_of_nil. split; [contradiction | intros [? _]; discriminate].
Qed.

Lemma issue_elem cfg (x : string) :
  x ∈ validate_config cfg
  ↔ (cache_size_rejected (dict_get cfg "cache_size") = true ∧ x = issue_cache_size)
    ∨ (timeout_rejected (dict_get cfg "timeout") = true ∧ x = issue_timeout)
    ∨ (debug_rejected (dict_get cfg "debug") = true ∧ x = issue_debug).
Proof.
  rewrite validate_config_unfold, !elem_of_app, !issue_if_elem. reflexivity.
Qed.

(** C8.  [validate_config] reads only the entries [cache_size], [timeout] and
    [debug]: two configurations that agree on them get the same answer.  It
    reports at most one issue per entry, in that order, and none when each
    entry is absent or passes (a positive integer, a positive number, a
    boolean).  The [cache_size] issue is reported exactly when the entry is
    present, not [None], and not an [int] of value at least 1; the [timeout]
    issue exactly when the entry is present, not [None], and neither an [int]
    above 0 nor a [float] that is not [<= 0]; the [debug] issue exactly when
    the entry is present, not [None] and not a [bool].  ([bool] is a subclass
    of [int] in Python, so [True] counts as the integer 1.)  On
    [{cache_size: -10, timeout: "30", debug: "yes"}] the answer is exactly
    three issues, which mention [cache_size], [timeout] and [debug]. *)
Theorem validate_config_checks_known_keys :
  (∀ cfg cfg' : gmap string pyval,
     cfg !! "cache_size" = cfg' !! "cache_size" →
     cfg !! "timeout" = cfg' !! "timeout" →
     cfg !! "debug" = cfg' !! "debug" →
     validate_config cfg = validate_config cfg')
  ∧ (∀ cfg, validate_config cfg `sublist_of` [issue_cache_size; issue_timeout; issue_debug])
  ∧ (∀ cfg : gmap string pyval,
       passes_or_absent positive_integer (cfg !! "cache_size") →
       passes_or_absent positive_number (cfg !! "timeout") →
       passes_or_absent boolean (cfg !! "debug") →
       validate_config cfg = [])
  ∧ (∀ cfg : gmap string pyval,
       issue_cache_size ∈ validate_config cfg
       ↔ ∃ v, cfg !! "cache_size" = Some v ∧ v ≠ VNone
              ∧ ∀ z, int_value v = Some z → z < 1)
  ∧ (∀ cfg : gmap string pyval,
       issue_timeout ∈ validate_config cfg
       ↔ ∃ v, cfg !! "timeout" = Some v ∧ v ≠ VNone
              ∧ ((∀ z, int_value v = Some z → z ≤ 0)
                 ∧ (∀ f, v = VFloat f → float_le_0 f = true)))
  ∧ (∀ cfg : gmap string pyval,
       issue_debug ∈ validate_config cfg
       ↔ ∃ v, cfg !! "debug" = Some v ∧ v ≠ VNone ∧ ∀ b, v ≠ VBool b)
  ∧ validate_config invalid_config_data
    = [issue_cache_size; issue_timeout; issue_debug]
  ∧ map (mentions "cache_size") (validate_config invalid_config_data) = [true; false; false]
  ∧ map (mentions "timeout") (validate_config invalid_config_data) = [false; true; false]
  ∧ map (mentions "debug") (validate_config invalid_config_data) = [false; false; true].
Proof.
  split.
  { intros cfg cfg' H1 H2 H3. rewrite !validate_config_unfold.
    unfold dict_get. rewrite H1, H2, H3. reflexivity. }
  split.
  { intros cfg. rewrite validate_config_unfold. unfold issue_if.
    destruct (cache_size_rejected _), (timeout_rejected _), (debug_rejected _);
      simpl; repeat constructor. }
  split.
  { intros cfg H1 H2 H3. rewrite validate_config_unfold.
    rewrite (rejected_absent cache_size_rejected positive_integer cfg "cache_size"
               eq_refl positive_integer_accepted H1).
    rewrite (rejected_absent timeout_rejected positive_number cfg "timeout"
               eq_refl positive_number_accepted H2).
    rewrite (rejected_absent debug_rejected boolean cfg "debug"
               eq_refl boolean_accepted H3).
    reflexivity. }
  split.
  { intros cfg. rewrite issue_elem, cache_size_rejected_iff.
    rewrite <- (dict_get_present cfg "cache_size" (λ v, ∀ z, int_value v = Some z → z < 1)).
    split; [intros [[H _] | [[_ H] | [_ H]]]; [exact H | discriminate ..] | intros H; left; auto]. }
  split.
  { intros cfg. rewrite issue_elem, timeout_rejected_iff.
    rewrite <- (dict_get_present cfg "timeout"
                  (λ v, (∀ z, int_value v = Some z → z ≤ 0)
                        ∧ (∀ f, v = VFloat f → float_le_0 f = true))).
    split; [intros [[_ H] | [[H _] | [_ H]]]; [discriminate | exact H | discriminate]
           | intros H; right; left; auto]. }
  split.
  { intros cfg. rewrite issue_elem, debug_rejected_iff.
    rewrite <- (dict_get_present cfg "debug" (λ v, ∀ b, v ≠ VBool b)).
    split; [intros [[_ H] | [[_ H] | [H _]]]; [discriminate | discriminate | exact H]
           | intros H; right; right; auto]. }
  repeat split; reflexivity.
Qed.

End Config.

(** ** [DataProcessor] *)

Module Processor.

Local Open Scope string_scope.
Local Open Scope list_scope.
Local Open Scope Z_scope.

(** Objects in the store: dictionaries (with string keys), and objects of any
    other class, such as lists. *)
Inductive pyobj :=
  | ODict (d : gmap string pyval)
  | OOther.

Inductive exn :=
  | ValueError_not_dict        (* "Expected dict, got ..." *)
  | ValueError_missing_id      (* "Item missing required 'id' field" *)
  | ValueError_random          (* "Random processing failure for item ..." *)
  | ZeroDivisionError.

(** The per-item lines the processor logs, with the index of the item. *)
Inductive log_event :=
  | Processed (i : nat)        (* "Successfully processed item i" *)
  | Failed (i : nat)           (* "Failed to process item i: ..." *)
  | Stopped.                   (* "Too many errors (...), stopping processing" *)

(** A processor together with the part of the world it acts on.  The
    attributes [config] and [cache] play no part in [process_data].  Of the
    lines [process_data] logs, [log] keeps those written per item; the
    opening and the closing line (lines 235 and 253) are not recorded.
    [time_calls] counts the calls of [time.time] the program itself makes
    (line 283), not the readings the [logging] module makes for its own
    records. *)
Record state := State {
  heap : list pyobj;           (* the store; an address is an index *)
  error_count : Z;             (* [self.error_count] *)
  max_errors : Z;              (* [self.max_errors] *)
  random_calls : nat;          (* calls of [random.random] so far *)
  time_calls : nat;            (* the program's calls of [time.time] so far *)
  log : list log_event
}.

Definition set_heap (h : list pyobj) (σ : state) : state :=
  State h (error_count σ) (max_errors σ) (random_calls σ) (time_calls σ) (log σ).

Definition set_error_count (c : Z) (σ : state) : state :=
  State (heap σ) c (max_errors σ) (random_calls σ) (time_calls σ) (log σ).

Definition tick_random (σ : state) : state :=
  State (heap σ) (error_count σ) (max_errors σ) (S (random_calls σ)) (time_calls σ) (log σ).

Definition tick_time (σ : state) : state :=
  State (heap σ) (error_count σ) (max_errors σ) (random_calls σ) (S (time_calls σ)) (log σ).

Definition logger (ev : log_event) (σ : state) : state :=
  State (heap σ) (error_count σ) (max_errors σ) (random_calls σ) (time_calls σ)
    (log σ ++ [ev]).

(** [DataProcessor(config)] (lines 217-221), in a world with store [h]. *)
Definition new (h : list pyobj) : state := State h 0 5 0 0 [].

(** [obj[key] = v] on the dictionary at address [l]. *)
Definition setitem (l : loc) (key : string) (v : pyval) (h : list pyobj) : list pyobj :=
  match h !! l with
  | Some (ODict d) => <[l := ODict (<[key := v]> d)]> h
  | _ => h
  end.

(** [x < y] on rationals. *)
Definition Qlt_bool (x y : Q) : bool :=
  match (x ?= y)%Q with Lt => true | _ => false end.

(** The float [0.2], exactly. *)
Definition failure_rate : Q := 3602879701896397 # 18014398509481984.

Definition status_processed : pyval := VStr "processed".

(** *** Vocabulary of the claims *)

(** An item is well formed when it is a dictionary with an ['id'] entry. *)
Definition well_formed (h : list pyobj) (item : pyval) : bool :=
  match item with
  | VRef l =>
      match h !! l with
      | Some (ODict d) => match d !! "id" with Some _ => true | None => false end
      | _ => false
      end
  | _ => false
  end.

Definition malformed (h : list pyobj) (item : pyval) : bool :=
  negb (well_formed h item).

(** Items refer to objects that exist. *)
Definition allocated (h : list pyobj) (item : pyval) : Prop :=
  ∀ l, item = VRef l → (l < length h)%nat.

(** Number of items handed to [_process_single_item], and number of those
    that failed, according to the log. *)
Definition is_attempt (ev : log_event) : bool :=
  match ev with Processed _ | Failed _ => true | Stopped => false end.

Definition is_failure (ev : log_event) : bool :=
  match ev with Failed _ => true | _ => false end.

Definition attempted (lg : list log_event) : nat := length (List.filter is_attempt lg).

Definition failures (lg : list log_event) : nat := length (List.filter is_failure lg).

(** The error budget as the specification words it: items are taken one
    after the other, a failure adds one to the count, and once the count has
    reached the maximum no further item of the batch is taken.  Given which
    items would fail ([true]), the number of items taken from the batch. *)
Fixpoint attempted_until_budget (count max : Z) (failed : list bool) : nat :=
  match failed with
  | [] => 0%nat
  | true :: rest =>
      if max <=? count + 1 then 1%nat
      else S (attempted_until_budget (count + 1) max rest)
  | false :: rest => S (attempted_until_budget count max rest)
  end.

Definition count_failed (failed : list bool) : nat :=
  length (List.filter (λ b : bool, b) failed).

(** Number of items in the lists a sequence of calls returned. *)
Definition returned_items (rs : list (exn + list pyval)) : nat :=
  foldr (λ r acc, match r with inr out => (length out + acc)%nat | inl _ => acc end) 0%nat rs.

(** Two states that differ in the counter and the log only. *)
Definition same_world (σ τ : state) : Prop :=
  heap σ = heap τ ∧ random_calls σ = random_calls τ ∧ time_calls σ = time_calls τ.

(** [output] is a new dictionary holding the entries of the dictionary
    [input], with a time stamp and the status marker added. *)
Definition transformed_copy (h h' : list pyobj) (input output : pyval) : Prop :=
  ∃ l d l' t,
    input = VRef l ∧ h !! l = Some (ODict d)
    ∧ output = VRef l' ∧ (length h ≤ l')%nat
    ∧ h' !! l' = Some (ODict (<["status" := status_processed]>
                               (<["processed_at" := VFloat (FFin t)]> d))).

Section Processing.
(** The values [random.random()] returns, call after call, and the values
    the program's own calls of [time.time()] return, one after the other. *)
Variable random_src : nat → Q.
Variable time_src : nat → Q.

(** [_process_single_item] (lines 257-286) *)
Definition _process_single_item (σ : state) (item : pyval) : state * (exn + pyval) :=
  match item with
  | VRef l =>
      match heap σ !! l with
      | Some (ODict d) =>
          match d !! "id" with
          | None => (σ, inl ValueError_missing_id)
          | Some _ =>
              let r := random_src (random_calls σ) in
              let σ := tick_random σ in
              if Qlt_bool r failure_rate then (σ, inl ValueError_random)
              else
                (* [processed_item = item.copy()] *)
                let processed_item := length (heap σ) in
                let σ := set_heap (heap σ ++ [ODict d]) σ in
                (* [processed_item["processed_at"] = time.time()] *)
                let t := time_src (time_calls σ) in
                let σ := tick_time σ in
                let σ := set_heap (setitem processed_item "processed_at" (VFloat (FFin t)) (heap σ)) σ in
                (* [processed_item["status"] = "processed"] *)
                let σ := set_heap (setitem processed_item "status" status_processed (heap σ)) σ in
                (σ, inr (VRef processed_item))
          end
      | _ => (σ, inl ValueError_not_dict)
      end
  | _ => (σ, inl ValueError_not_dict)
  end.

(** The [for i, item in enumerate(data)] loop of [process_data]
    (lines 237-250), from item number [i] on. *)
Fixpoint process_loop (σ : state) (i : nat) (items : list pyval)
    (processed_items : list pyval) : state * list pyval :=
  match items with
  | [] => (σ, processed_items)
  | item :: rest =>
      match _process_single_item σ item with
      | (σ, inr processed_item) =>
          let processed_items := processed_items ++ [processed_item] in
          let σ := logger (Processed i) σ in
          process_loop σ (S i) rest processed_items
      | (σ, inl e) =>
          let σ := set_error_count (error_count σ + 1) σ in
          let σ := logger (Failed i) σ in
          if error_count σ >=? max_errors σ
          then (logger Stopped σ, processed_items)
          else process_loop σ (S i) rest processed_items
      end
  end.

(** [process_data] (lines 223-255).  The success rate computed for the
    closing log line divides by [len(data)] (line 252). *)
Definition process_data (σ : state) (data : list pyval) : state * (exn + list pyval) :=
  let '(σ, processed_items) := process_loop σ 0 data [] in
  if (length data =? 0)%nat
  then (σ, inl ZeroDivisionError)
  else (σ, inr processed_items).

(** A caller making one call after the other on the same instance, whatever
    it does with the results. *)
Fixpoint process_batches (σ : state) (batches : list (list pyval))
    : state * list (exn + list pyval) :=
  match batches with
  | [] => (σ, [])
  | data :: rest =>
      let '(σ, r) := process_data σ data in
      let '(σ, rs) := process_batches σ rest in
      (σ, r :: rs)
  end.

(** *** The failures of a call, item by item *)

(** Which items fail when [_process_single_item] is applied to one item of
    the batch after the other, starting in state [σ]: [true] where it
    raises.  The counter plays no part in this. *)
Fixpoint item_failures (σ : state) (items : list pyval) : list bool :=
  match items with
  | [] => []
  | item :: rest =>
      let '(σ, r) := _process_single_item σ item in
      match r with
      | inl _ => true :: item_failures σ rest
      | inr _ => false :: item_failures σ rest
      end
  end.

(** The number of items a call on [data] in state [σ] takes from the batch
    under the error budget, and the number of those that fail. *)
Definition attempted_items (σ : state) (data : list pyval) : nat :=
  attempted_until_budget (error_count σ) (max_errors σ) (item_failures σ data).

Definition failed_items (σ : state) (data : list pyval) : nat :=
  count_failed (take (attempted_items σ data) (item_failures σ data)).

(** The same over a sequence of calls on one instance, each call counted in
    the state the call before it has left. *)
Fixpoint cumulative_attempts (σ : state) (batches : list (list pyval)) : nat :=
  match batches with
  | [] => 0%nat
  | data :: rest =>
      (attempted_items σ data + cumulative_attempts (fst (process_data σ data)) rest)%nat
  end.

Fixpoint cumulative_failures (σ : state) (batches : list (list pyval)) : nat :=
  match batches with
  | [] => 0%nat
  | data :: rest =>
      (failed_items σ data + cumulative_failures (fst (process_data σ data)) rest)%nat
  end.

(** Fault injection is disabled when no draw falls below the failure rate. *)
Definition no_faults : Prop :=
  ∀ i, Qlt_bool (random_src i) failure_rate = false.

(** "Exactly [N - M] transformed items are returned, in input order, and the
    error counter equals [M]", for a call on [data] in state [σ]; [M] is the
    number of malformed items. *)
Definition returns_well_formed_items (σ : state) (data : list pyval) : Prop :=
  let σ' := fst (process_data σ data) in
  let M := length (List.filter (malformed (heap σ)) data) in
  ∃ out,
    snd (process_data σ data) = inr out
    ∧ length out = (length data - M)%nat
    ∧ Forall2 (transformed_copy (heap σ) (heap σ'))
        (List.filter (well_formed (heap σ)) data) out
    ∧ error_count σ' = Z.of_nat M.


End Processing.

(** *** Concrete batches *)

(** [random.random] patched to return 0.9 and a clock that ticks once per
    reading, as in the unit tests. *)
Definition steady_random (_ : nat) : Q := 9 # 10.
Definition ticking_clock (n : nat) : Q := inject_Z (Z.of_nat n).

(** The batch of the error-recovery test: two valid records, a string, and a
    record without ['id']. *)
Definition store0 : list pyobj :=
  [ODict (<["id" := VInt 1]> (<["name" := VStr "Alice"]> ∅));
   ODict (<["name" := VStr "Bob"]> ∅);
   ODict (<["id" := VInt 4]> (<["name" := VStr "David"]> ∅))].

Definition batch0 : list pyval :=
  [VRef 0%nat; VStr "invalid_item"; VRef 1%nat; VRef 2%nat].

(** Five items that are not records, followed by a valid record. *)
Definition store1 : list pyobj := [ODict (<["id" := VInt 6]> ∅)].

Definition batch1 : list pyval :=
  [VNone; VNone; VNone; VNone; VNone; VRef 0%nat].


(** *** The store *)

Lemma setitem_last h d key v :
  setitem (length h) key v (h ++ [ODict d]) = h ++ [ODict (<[key := v]> d)].
Proof.
  unfold setitem. rewrite lookup_app_r by lia. rewrite Nat.sub_diag. simpl.
  rewrite insert_app_r_alt by lia. rewrite Nat.sub_diag. reflexivity.
Qed.

Lemma well_formed_ext h ext item :
  allocated h item → well_formed (h ++ ext) item = well_formed h item.
Proof.
  intros Halloc. destruct item as [| | | | | l]; try reflexivity.
  simpl. rewrite lookup_app_l by (apply Halloc; reflexivity). reflexivity.
Qed.

Lemma copy_made h0 ext0 h l d t ext :
  h = h0 ++ ext0 →
  allocated h0 (VRef l) →
  h !! l = Some (ODict d) →
  transformed_copy h0
    ((h ++ [ODict (<["status" := status_processed]>
                   (<["processed_at" := VFloat (FFin t)]> d))]) ++ ext)
    (VRef l) (VRef (length h)).
Proof.
  intros -> Halloc Hl. exists l, d, (length (h0 ++ ext0)), t. repeat split.
  - rewrite lookup_app_l in Hl by (apply Halloc; reflexivity). assumption.
  - rewrite length_app. lia.
  - rewrite lookup_app_l by (rewrite !length_app; simpl; lia).
    rewrite lookup_app_r by lia. rewrite Nat.sub_diag. reflexivity.
Qed.

Lemma removelast_cons {A} (x : A) (l : list A) :
  l ≠ [] → removelast (x :: l) = x :: removelast l.
Proof. destruct l; [contradiction | reflexivity]. Qed.

Section ProcessingFacts.
Variable random_src : nat → Q.
Variable time_src : nat → Q.

Abbreviation process_single_item := (_process_single_item random_src time_src).
Abbreviation loop := (process_loop random_src time_src).

(** What one call of [_process_single_item] does to the state. *)
Lemma process_single_item_inv σ item σ1 r :
  process_single_item σ item = (σ1, r) →
  error_count σ1 = error_count σ ∧ max_errors σ1 = max_errors σ ∧ log σ1 = log σ
  ∧ match r with
    | inl _ => heap σ1 = heap σ
    | inr out =>
        ∃ l d t,
          item = VRef l ∧ heap σ !! l = Some (ODict d)
          ∧ out = VRef (length (heap σ))
          ∧ heap σ1 = heap σ ++ [ODict (<["status" := status_processed]>
                                         (<["processed_at" := VFloat (FFin t)]> d))]
    end.
Proof.
  unfold _process_single_item.
  destruct item as [| | | | | l]; try (intros [= <- <-]; auto).
  destruct (heap σ !! l) as [[d |] |] eqn:Hl; try (intros [= <- <-]; auto).
  destruct (d !! "id"); [| intros [= <- <-]; auto].
  destruct (Qlt_bool _ _); intros [= <- <-]; [auto |].
  cbn [set_heap tick_time tick_random heap error_count max_errors log
       random_calls time_calls].
  repeat split.
  exists l, d, (time_src (time_calls σ)). repeat split; [assumption |].
  rewrite !setitem_last. reflexivity.
Qed.

Lemma process_single_item_malformed σ item :
  malformed (heap σ) item = true →
  ∃ e, process_single_item σ item = (σ, inl e).
Proof.
  unfold malformed, well_formed, _process_single_item.
  destruct item as [| | | | | l]; try solve [intros _; eauto].
  destruct (heap σ !! l) as [[d |] |]; try solve [intros _; eauto].
  destruct (d !! "id"); simpl; [discriminate | intros _; eauto].
Qed.

Lemma process_single_item_well_formed σ item :
  no_faults random_src →
  well_formed (heap σ) item = true →
  ∃ σ1 out, process_single_item σ item = (σ1, inr out).
Proof.
  intros Hnf. unfold well_formed, _process_single_item.
  destruct item as [| | | | | l]; try discriminate.
  destruct (heap σ !! l) as [[d |] |]; try discriminate.
  destruct (d !! "id"); [| discriminate].
  intros _. rewrite Hnf. eauto.
Qed.

Lemma attempted_app lg1 lg2 : attempted (lg1 ++ lg2) = (attempted lg1 + attempted lg2)%nat.
Proof. unfold attempted. rewrite List.filter_app, length_app. reflexivity. Qed.

Lemma failures_app lg1 lg2 : failures (lg1 ++ lg2) = (failures lg1 + failures lg2)%nat.
Proof. unfold failures. rewrite List.filter_app, length_app. reflexivity. Qed.

(** What the loop does to the processor, the store and the log. *)
Lemma process_loop_effect items :
  ∀ σ i acc σ' out,
    loop σ i items acc = (σ', out) →
    max_errors σ' = max_errors σ
    ∧ ∃ lg new ext,
        log σ' = log σ ++ lg ∧ out = acc ++ new ∧ heap σ' = heap σ ++ ext
        ∧ length ext = length new
        ∧ new = map VRef (seq (length (heap σ)) (length new))
        ∧ error_count σ' = error_count σ + Z.of_nat (failures lg)
        ∧ attempted lg = (failures lg + length new)%nat
        ∧ (attempted lg ≤ length items)%nat
        ∧ error_count σ' ≤ Z.max (error_count σ + 1) (max_errors σ).
Proof.
  induction items as [| item rest IH]; intros σ i acc σ' out Hrun.
  - injection Hrun as <- <-. split; [reflexivity |].
    exists [], [], []. rewrite !app_nil_r. unfold attempted, failures. simpl.
    repeat split; lia.
  - cbn [process_loop] in Hrun.
    destruct (process_single_item σ item) as [σ1 [e | out1]] eqn:Hitem;
      apply process_single_item_inv in Hitem as (Hec & Hmax & Hlog & Hheap).
    + destruct (_ >=? _) eqn:Hstop in Hrun.
      * injection Hrun as <- <-. cbn. split; [assumption |].
        exists [Failed i; Stopped], [], [].
        rewrite Hlog, Hheap, Hec, <- !app_assoc, !app_nil_r.
        unfold attempted, failures. cbn.
        repeat split; lia.
      * apply IH in Hrun as (Hmax' & lg & new & ext & Hlg & -> & Hext & Hlen & Hnew
                               & Herr & Hatt & Hle & Hbound).
        cbn in Hmax', Hlg, Hext, Hnew, Herr, Hbound, Hstop.
        split; [congruence |].
        exists (Failed i :: lg), new, ext.
        rewrite Hlg, Hext, Hlog, Hheap, <- app_assoc. cbn [app].
        rewrite Hheap in Hnew.
        change (Failed i :: lg) with ([Failed i] ++ lg).
        rewrite attempted_app, failures_app.
        unfold attempted, failures in *. cbn.
        repeat split; try assumption; try lia.
    + destruct Hheap as (l & d & t & -> & Hl & -> & Hheap).
      apply IH in Hrun as (Hmax' & lg & new & ext & Hlg & -> & Hext & Hlen & Hnew
                             & Herr & Hatt & Hle & Hbound).
      cbn in Hmax', Hlg, Hext, Hnew, Herr, Hbound.
      split; [congruence |].
      eexists (Processed i :: lg), (VRef (length (heap σ)) :: new), (_ :: ext).
      rewrite Hlg, Hext, Hlog, Hheap, <- !app_assoc. cbn [app].
      rewrite Hheap, length_app, Nat.add_1_r in Hnew.
      change (Processed i :: lg) with ([Processed i] ++ lg).
      rewrite attempted_app, failures_app.
      unfold attempted, failures in *. cbn.
      repeat split; try lia.
      f_equal. assumption.
Qed.

(** Every returned item is a transformed copy of an input item, and the
    returned items follow the order of the input. *)
Lemma process_loop_copies h0 items :
  ∀ σ i acc σ' out ext0,
    heap σ = h0 ++ ext0 →
    Forall (allocated h0) items →
    loop σ i items acc = (σ', out) →
    ∃ inputs new,
      inputs `sublist_of` items ∧ out = acc ++ new
      ∧ Forall2 (transformed_copy h0 (heap σ')) inputs new.
Proof.
  induction items as [| item rest IH]; intros σ i acc σ' out ext0 Hbase Halloc Hrun.
  - injection Hrun as <- <-. exists [], []. rewrite app_nil_r.
    repeat split; constructor.
  - apply Forall_cons in Halloc as [Hitem_alloc Halloc].
    cbn [process_loop] in Hrun.
    destruct (process_single_item σ item) as [σ1 [e | out1]] eqn:Hitem;
      apply process_single_item_inv in Hitem as (Hec & Hmax & Hlog & Hheap).
    + destruct (_ >=? _) in Hrun.
      * injection Hrun as <- <-. exists [], []. rewrite app_nil_r.
        repeat split; [apply sublist_nil_l | constructor].
      * apply (IH _ _ _ _ _ ext0) in Hrun as (inputs & new & Hsub & -> & Hall);
          [| cbn; congruence | assumption].
        exists inputs, new. repeat split; [apply sublist_cons |]; assumption.
    + destruct Hheap as (l & d & t & -> & Hl & -> & Hheap).
      pose proof Hrun as Heff. apply process_loop_effect in Heff as (_ & _ & _ & ext & _ & _ & Hext & _).
      cbn in Hext.
      apply (IH _ _ _ _ _ (ext0 ++ [ODict (<["status" := status_processed]>
                                           (<["processed_at" := VFloat (FFin t)]> d))]))
        in Hrun as (inputs & new & Hsub & -> & Hall);
        [| cbn; rewrite Hheap, Hbase, <- app_assoc; reflexivity | assumption].
      exists (VRef l :: inputs), (VRef (length (heap σ)) :: new).
      rewrite <- app_assoc. repeat split; [apply sublist_skip; assumption |].
      constructor; [| assumption].
      rewrite Hext, Hheap. eapply copy_made; eassumption.
Qed.

Abbreviation process := (process_data random_src time_src).

(** [process_data] is its loop, followed by the division. *)
Lemma process_data_loop σ data σ' r :
  process σ data = (σ', r) →
  ∃ new,
    loop σ 0 data [] = (σ', new)
    ∧ (r = inr new ∧ data ≠ [] ∨ r = inl ZeroDivisionError ∧ data = [] ∧ new = []).
Proof.
  unfold process_data. destruct (loop σ 0 data []) as [σ1 new] eqn:Hloop.
  destruct data as [| item rest]; cbn [length Nat.eqb]; intros [= <- <-].
  - injection Hloop as <- <-. exists []. split; [reflexivity |]. right. auto.
  - exists new. split; [reflexivity |]. left. split; [reflexivity | discriminate].
Qed.

(** What one call does to the processor and the log. *)
Lemma process_data_effect σ data σ' r :
  process σ data = (σ', r) →
  max_errors σ' = max_errors σ
  ∧ error_count σ' ≤ Z.max (error_count σ + 1) (max_errors σ)
  ∧ ∃ lg,
      log σ' = log σ ++ lg
      ∧ error_count σ' = error_count σ + Z.of_nat (failures lg)
      ∧ attempted lg = (failures lg + returned_items [r])%nat.
Proof.
  intros Hrun. apply process_data_loop in Hrun as (new & Hloop & Hr).
  apply process_loop_effect in Hloop
    as (Hmax & lg & new' & ext & Hlg & Hnew & _ & _ & _ & Herr & Hatt & _ & Hbound).
  simpl in Hnew. subst new'.
  split; [assumption |]. split; [assumption |].
  exists lg. split; [assumption |]. split; [assumption |].
  destruct Hr as [[-> _] | (-> & _ & ->)]; simpl in *; lia.
Qed.

(** C4 (the code does not meet the claim on the empty batch).  On an empty
    list [process_data] raises [ZeroDivisionError] to its caller: nothing is
    processed and the division by [len(data)] that prepares the closing log
    line fails.  On every other list it returns a list, whatever the items
    are. *)
Theorem process_data_empty_raises (σ : state) :
  process_data random_src time_src σ [] = (σ, inl ZeroDivisionError)
  ∧ ∀ data, data ≠ [] → ∃ out, snd (process_data random_src time_src σ data) = inr out.
Proof.
  split; [reflexivity |].
  intros data Hne. destruct (process σ data) as [σ' r] eqn:Hrun.
  apply process_data_loop in Hrun as (new & _ & [[-> _] | (_ & -> & _)]).
  - exists new. reflexivity.
  - contradiction.
Qed.

(** C10.  [process_data] writes to no object that existed before the call:
    every address of the store holds afterwards the object it held before, so
    every input item, malformed or not, is as it was supplied.  The returned
    items are pairwise distinct new dictionaries, and each is the copy of an
    input dictionary with the entries [processed_at] and [status] set; they
    come in the order of the inputs they were made from. *)
Theorem process_data_leaves_inputs_untouched (σ : state) (data : list pyval) :
  Forall (allocated (heap σ)) data →
  let σ' := fst (process_data random_src time_src σ data) in
  (∀ l o, heap σ !! l = Some o → heap σ' !! l = Some o)
  ∧ ∀ out, snd (process_data random_src time_src σ data) = inr out →
      NoDup out
      ∧ Forall (λ v, ∃ l', v = VRef l' ∧ heap σ !! l' = None) out
      ∧ ∃ inputs,
          inputs `sublist_of` data
          ∧ Forall2 (transformed_copy (heap σ) (heap σ')) inputs out.
Proof.
  intros Halloc σ'. subst σ'.
  destruct (process σ data) as [σ' r] eqn:Hrun. cbn [fst snd].
  apply process_data_loop in Hrun as (new & Hloop & Hr).
  pose proof Hloop as Heff.
  apply process_loop_effect in Heff
    as (_ & lg & new' & ext & _ & Hnew' & Hext & _ & Hrefs & _).
  simpl in Hnew'. subst new'.
  split.
  - intros l o Hl. rewrite Hext. apply lookup_app_l_Some. assumption.
  - intros out ->. destruct Hr as [[[= <-] _] | ([=] & _)].
    split; [| split].
    + rewrite Hrefs. apply NoDup_fmap_2; [intros ? ? [=]; assumption | apply NoDup_seq].
    + rewrite Hrefs. apply Forall_fmap, Forall_forall. intros l' Hl'.
      apply elem_of_seq in Hl'. exists l'. split; [reflexivity |].
      apply lookup_ge_None. lia.
    + apply (process_loop_copies (heap σ) data σ 0 [] σ' out []) in Hloop
        as (inputs & new & Hsub & -> & Hall);
        [| rewrite app_nil_r; reflexivity | assumption].
      exists inputs. split; assumption.
Qed.

Lemma returned_items_cons r rs :
  returned_items (r :: rs) = (returned_items [r] + returned_items rs)%nat.
Proof. unfold returned_items. destruct r; simpl; lia. Qed.

(** [_process_single_item] neither reads nor writes the counter and the
    log. *)
Lemma process_single_item_same_world σ τ item :
  same_world σ τ →
  match process_single_item σ item, process_single_item τ item with
  | (σ1, inl e), (τ1, inl e') => e = e' ∧ same_world σ1 τ1
  | (σ1, inr v), (τ1, inr v') => v = v' ∧ same_world σ1 τ1
  | _, _ => False
  end.
Proof.
  destruct σ as [h c m rc tc lg], τ as [h' c' m' rc' tc' lg'].
  intros (Hh & Hr & Ht). cbn in Hh, Hr, Ht. subst h' rc' tc'.
  unfold _process_single_item. cbn.
  destruct item as [| | | | | l]; try (split; [reflexivity | repeat split]).
  destruct (h !! l) as [[d |] |]; try (split; [reflexivity | repeat split]).
  destruct (d !! "id"); [| split; [reflexivity | repeat split]].
  destruct (Qlt_bool _ _); split; try reflexivity; repeat split.
Qed.

Lemma item_failures_same_world items :
  ∀ σ τ, same_world σ τ →
    item_failures random_src time_src σ items = item_failures random_src time_src τ items.
Proof.
  induction items as [| item rest IH]; intros σ τ Hsame; [reflexivity |].
  cbn [item_failures].
  pose proof (process_single_item_same_world σ τ item Hsame) as Hstep.
  destruct (process_single_item σ item) as [σ1 [e | v]],
           (process_single_item τ item) as [τ1 [e' | v']];
    try contradiction; destruct Hstep as [_ Hsame1];
    f_equal; apply IH; assumption.
Qed.

(** The loop takes the items the budget allows, and counts those of them
    that fail. *)
Lemma process_loop_counts items :
  ∀ σ i acc σ' out,
    loop σ i items acc = (σ', out) →
    let failed := item_failures random_src time_src σ items in
    let k := attempted_until_budget (error_count σ) (max_errors σ) failed in
    error_count σ' = error_count σ + Z.of_nat (count_failed (take k failed))
    ∧ (length out + count_failed (take k failed) = length acc + k)%nat
    ∧ ∃ lg,
        log σ' = log σ ++ lg
        ∧ failures lg = count_failed (take k failed)
        ∧ attempted lg = k.
Proof.
  induction items as [| item rest IH]; intros σ i acc σ' out Hrun.
  - injection Hrun as <- <-. cbn. split; [lia |]. split; [lia |].
    exists []. rewrite app_nil_r. repeat split.
  - cbn [process_loop] in Hrun. cbn [item_failures].
    destruct (process_single_item σ item) as [σ1 [e | out1]] eqn:Hitem;
      apply process_single_item_inv in Hitem as (Hec & Hmax & Hlog & _).
    + cbn [attempted_until_budget]. rewrite <- Hec, <- Hmax, <- Z.geb_leb.
      cbn [logger set_error_count error_count max_errors] in Hrun.
      destruct (error_count σ1 + 1 >=? max_errors σ1) eqn:Hstop.
      * injection Hrun as <- <-. cbn. rewrite !take_0. cbn.
        split; [lia |]. split; [lia |].
        exists [Failed i; Stopped]. rewrite Hlog, <- app_assoc.
        repeat split.
      * apply IH in Hrun as (Herr & Hlen & lg & Hlg & Hfail & Hatt).
        cbn [logger set_error_count error_count max_errors log] in Herr, Hlen, Hlg, Hfail, Hatt.
        rewrite (item_failures_same_world rest _ σ1) in Herr, Hlen, Hfail, Hatt
          by (repeat split).
        cbn [take]. unfold count_failed in *. cbn [List.filter length].
        split; [lia |]. split; [lia |].
        exists (Failed i :: lg). rewrite Hlg, Hlog, <- app_assoc.
        unfold failures, attempted in *. cbn. repeat split; lia.
    + cbn [attempted_until_budget]. rewrite <- Hec, <- Hmax.
      apply IH in Hrun as (Herr & Hlen & lg & Hlg & Hfail & Hatt).
      cbn [logger error_count max_errors log] in Herr, Hlen, Hlg, Hfail, Hatt.
      rewrite (item_failures_same_world rest _ σ1) in Herr, Hlen, Hfail, Hatt
        by (repeat split).
      rewrite length_app in Hlen. cbn [length] in Hlen.
      cbn [take]. unfold count_failed in *. cbn [List.filter length].
      split; [lia |]. split; [lia |].
      exists (Processed i :: lg). rewrite Hlg, Hlog, <- app_assoc.
      unfold failures, attempted in *. cbn. repeat split; lia.
Qed.

(** One call: the counter grows by the number of items that failed, and each
    item taken from the batch has either failed or been returned. *)
Lemma process_data_counts σ data σ' r :
  process σ data = (σ', r) →
  error_count σ' = error_count σ + Z.of_nat (failed_items random_src time_src σ data)
  ∧ (failed_items random_src time_src σ data + returned_items [r]
     = attempted_items random_src time_src σ data)%nat
  ∧ ∃ lg,
      log σ' = log σ ++ lg
      ∧ failures lg = failed_items random_src time_src σ data
      ∧ attempted lg = attempted_items random_src time_src σ data.
Proof.
  intros Hrun. apply process_data_loop in Hrun as (new & Hloop & Hr).
  apply process_loop_counts in Hloop as (Herr & Hlen & lg & Hlg & Hfail & Hatt).
  cbv zeta in Herr, Hlen, Hfail, Hatt. cbn [length] in Hlen.
  fold (attempted_items random_src time_src σ data) in Herr, Hlen, Hfail, Hatt.
  fold (failed_items random_src time_src σ data) in Herr, Hlen, Hfail.
  split; [assumption |]. split.
  - destruct Hr as [[-> _] | (-> & _ & ->)]; cbn in *; lia.
  - exists lg. repeat split; assumption.
Qed.

(** Without injected faults the items that fail are the malformed ones. *)
Lemma item_failures_no_faults h0 :
  no_faults random_src →
  ∀ items σ ext0,
    heap σ = h0 ++ ext0 →
    Forall (allocated h0) items →
    item_failures random_src time_src σ items = map (malformed h0) items.
Proof.
  intros Hnf. induction items as [| item rest IH]; intros σ ext0 Hbase Halloc;
    [reflexivity |].
  apply Forall_cons in Halloc as [Hitem_alloc Halloc].
  cbn [item_failures map].
  assert (Hwf : well_formed (heap σ) item = well_formed h0 item)
    by (rewrite Hbase; apply well_formed_ext; assumption).
  assert (Hm : malformed h0 item = negb (well_formed h0 item)) by reflexivity.
  destruct (well_formed h0 item) eqn:Hshape.
  - destruct (process_single_item_well_formed σ item Hnf Hwf) as (σ1 & out & Hstep).
    rewrite Hstep, Hm. cbn [negb]. f_equal.
    apply process_single_item_inv in Hstep as (_ & _ & _ & l & d & t & _ & _ & _ & Hheap).
    apply (IH σ1 (ext0 ++ [ODict (<["status" := status_processed]>
                                  (<["processed_at" := VFloat (FFin t)]> d))]));
      [rewrite Hheap, Hbase, <- app_assoc; reflexivity | assumption].
  - assert (Hbad : malformed (heap σ) item = true)
      by (unfold malformed; rewrite Hwf; reflexivity).
    destruct (process_single_item_malformed σ item Hbad) as [e Hstep].
    rewrite Hstep, Hm. cbn [negb]. f_equal.
    apply (IH σ ext0); assumption.
Qed.

(** C9.  Over any sequence of [process_data] calls on one instance, started
    in any state of that instance: the error counter never decreases (so it
    is never set back to zero), [max_errors] stays what it was, and the
    counter grows by exactly the number of items that failed in these calls.
    An item has failed when [_process_single_item] raised on it; the items
    of a call are taken from the batch until the counter has reached
    [max_errors], and each item taken has either failed or been returned, so
    the failures are the items taken minus the items returned; the log
    carries one failure line for each of them.  Started from zero, the
    counter is zero afterwards only if no item has failed.  Each call adds
    its own failures to the one cumulative counter and tests that counter
    against [max_errors], so a call ends with the counter at most
    [max (error_count + 1) max_errors].  Without injected faults the items
    that fail are the malformed ones.  A new instance starts at zero with a
    budget of 5. *)
Theorem error_count_accumulates (σ : state) (batches : list (list pyval)) :
  let run := process_batches random_src time_src σ batches in
  let σ' := fst run in
  let failed := cumulative_failures random_src time_src σ batches in
  error_count σ ≤ error_count σ'
  ∧ max_errors σ' = max_errors σ
  ∧ error_count σ' = error_count σ + Z.of_nat failed
  ∧ (failed + returned_items (snd run))%nat
    = cumulative_attempts random_src time_src σ batches
  ∧ (∃ lg,
       log σ' = log σ ++ lg
       ∧ failures lg = failed
       ∧ attempted lg = cumulative_attempts random_src time_src σ batches)
  ∧ (error_count σ = 0 → (error_count σ' = 0 ↔ failed = 0%nat))
  ∧ (∀ data,
       let σ1 := fst (process_data random_src time_src σ data) in
       error_count σ1
       = error_count σ + Z.of_nat (failed_items random_src time_src σ data)
       ∧ error_count σ1 ≤ Z.max (error_count σ + 1) (max_errors σ))
  ∧ (no_faults random_src →
     ∀ data, Forall (allocated (heap σ)) data →
       item_failures random_src time_src σ data = map (malformed (heap σ)) data)
  ∧ (∀ h, error_count (new h) = 0 ∧ max_errors (new h) = 5).
Proof.
  intros run σ' failed. subst σ' run failed.
  assert (Hseq : ∀ bs s,
    max_errors (fst (process_batches random_src time_src s bs)) = max_errors s
    ∧ error_count (fst (process_batches random_src time_src s bs))
      = error_count s + Z.of_nat (cumulative_failures random_src time_src s bs)
    ∧ (cumulative_failures random_src time_src s bs
       + returned_items (snd (process_batches random_src time_src s bs)))%nat
      = cumulative_attempts random_src time_src s bs
    ∧ ∃ lg,
        log (fst (process_batches random_src time_src s bs)) = log s ++ lg
        ∧ failures lg = cumulative_failures random_src time_src s bs
        ∧ attempted lg = cumulative_attempts random_src time_src s bs).
  { induction bs as [| data rest IH]; intros s.
    - cbn. split; [reflexivity |]. split; [lia |]. split; [reflexivity |].
      exists []. rewrite app_nil_r. repeat split.
    - cbn [process_batches cumulative_failures cumulative_attempts].
      destruct (process s data) as [s1 r] eqn:Hcall.
      specialize (IH s1).
      destruct (process_batches random_src time_src s1 rest) as [s2 rs].
      cbn [fst snd] in *.
      pose proof (process_data_effect _ _ _ _ Hcall) as (Hmax1 & _).
      apply process_data_counts in Hcall as (Herr1 & Hret1 & lg1 & Hlg1 & Hfail1 & Hatt1).
      destruct IH as (Hmax2 & Herr2 & Hret2 & lg2 & Hlg2 & Hfail2 & Hatt2).
      split; [congruence |]. split; [lia |].
      split; [rewrite (returned_items_cons r rs); lia |].
      exists (lg1 ++ lg2).
      rewrite Hlg2, Hlg1, <- app_assoc, attempted_app, failures_app.
      repeat split; lia. }
  destruct (Hseq batches σ) as (Hmax & Herr & Hret & lg & Hlg & Hfail & Hatt).
  split; [lia |]. split; [assumption |]. split; [assumption |].
  split; [assumption |].
  split; [exists lg; repeat split; assumption |].
  split; [intros Hzero; lia |].
  split; [| split; [| intros h; split; reflexivity]].
  - intros data σ1. subst σ1.
    destruct (process σ data) as [s1 r] eqn:Hcall. cbn [fst].
    pose proof (process_data_effect _ _ _ _ Hcall) as (_ & Hbound & _).
    apply process_data_counts in Hcall as (Herr1 & _).
    split; assumption.
  - intros Hnf data Halloc.
    apply (item_failures_no_faults (heap σ) Hnf data σ []);
      [rewrite app_nil_r; reflexivity | assumption].
Qed.


(** Without injected faults and with enough budget to reach the last item,
    the loop transforms exactly the well-formed items and counts the others. *)
Lemma process_loop_no_faults h0 :
  no_faults random_src →
  ∀ items σ i acc σ' out ext0,
    heap σ = h0 ++ ext0 →
    Forall (allocated h0) items →
    error_count σ + Z.of_nat (length (List.filter (malformed h0) (removelast items)))
      < max_errors σ →
    loop σ i items acc = (σ', out) →
    ∃ new,
      out = acc ++ new
      ∧ Forall2 (transformed_copy h0 (heap σ')) (List.filter (well_formed h0) items) new
      ∧ error_count σ'
        = error_count σ + Z.of_nat (length (List.filter (malformed h0) items)).
Proof.
  intros Hnf.
  induction items as [| item rest IH]; intros σ i acc σ' out ext0 Hbase Halloc Hbudget Hrun.
  - injection Hrun as <- <-. exists []. rewrite app_nil_r. simpl.
    repeat split; [constructor | lia].
  - apply Forall_cons in Halloc as [Hitem_alloc Halloc].
    assert (Hwf_now : well_formed (heap σ) item = well_formed h0 item)
      by (rewrite Hbase; apply well_formed_ext; assumption).
    assert (Hrest : rest = [] ∨ rest ≠ []) by (destruct rest; [left | right]; congruence).
    cbn [process_loop] in Hrun. cbn [List.filter].
    assert (Hm : malformed h0 item = negb (well_formed h0 item)) by reflexivity.
    destruct (well_formed h0 item) eqn:Hwf; cbn [negb] in Hm; rewrite Hm.
    + destruct (process_single_item_well_formed σ item Hnf Hwf_now) as (σ1 & out1 & Hitem).
      rewrite Hitem in Hrun.
      apply process_single_item_inv in Hitem
        as (Hec & Hmax & Hlog & l & d & t & -> & Hl & -> & Hheap).
      pose proof Hrun as Heff.
      apply process_loop_effect in Heff as (_ & _ & _ & ext & _ & _ & Hext & _).
      cbn in Hext.
      apply (IH _ _ _ _ _ (ext0 ++ [ODict (<["status" := status_processed]>
                                           (<["processed_at" := VFloat (FFin t)]> d))]))
        in Hrun as (new & -> & Hall & Herr);
        [| cbn; rewrite Hheap, Hbase, <- app_assoc; reflexivity | assumption |].
      * exists (VRef (length (heap σ)) :: new). rewrite <- app_assoc.
        cbn in Herr. repeat split; [| lia].
        constructor; [| assumption].
        rewrite Hext, Hheap. eapply copy_made; eassumption.
      * cbn. destruct Hrest as [-> | Hne]; [simpl; lia |].
        rewrite removelast_cons in Hbudget by assumption.
        cbn [List.filter] in Hbudget. rewrite Hm in Hbudget. lia.
    + destruct (process_single_item_malformed σ item) as [e Hitem];
        [unfold malformed; rewrite Hwf_now; reflexivity |].
      rewrite Hitem in Hrun. cbn in Hrun.
      destruct (_ >=? _) eqn:Hstop in Hrun.
      * apply Z.geb_le in Hstop.
        destruct Hrest as [-> | Hne].
        -- injection Hrun as <- <-. exists []. rewrite app_nil_r.
           split; [reflexivity |]. split; [constructor | cbn; lia].
        -- rewrite removelast_cons in Hbudget by assumption.
           cbn [List.filter] in Hbudget. rewrite Hm in Hbudget.
           cbn [length] in Hbudget. lia.
      * assert (Hgo : error_count σ + 1 < max_errors σ).
        { destruct (Z_lt_le_dec (error_count σ + 1) (max_errors σ)) as [? | Hle];
            [assumption |]. apply Z.geb_le in Hle. congruence. }
        apply (IH _ _ _ _ _ ext0) in Hrun as (new & -> & Hall & Herr);
          [| cbn; assumption | assumption |].
        -- exists new. cbn in Herr. cbn [length]. repeat split; [assumption | lia].
        -- cbn. destruct Hrest as [-> | Hne]; [simpl; lia |].
           rewrite removelast_cons in Hbudget by assumption.
           cbn [List.filter] in Hbudget. rewrite Hm in Hbudget.
           cbn [length] in Hbudget. lia.
Qed.

(** C5, amended.  On a new processor (counter 0, budget 5), with fault
    injection disabled, for a non-empty batch in which fewer than 5 malformed
    items come before the last item (in particular whenever [M < 5]):
    [process_data] returns exactly [N - M] items, which are the transformed
    copies of the well-formed items in their input order, and the error
    counter equals [M] afterwards. *)
Theorem process_data_partial_result (σ : state) (data : list pyval) :
  no_faults random_src →
  error_count σ = 0 → max_errors σ = 5 →
  Forall (allocated (heap σ)) data →
  data ≠ [] →
  (length (List.filter (malformed (heap σ)) (removelast data)) < 5)%nat →
  returns_well_formed_items random_src time_src σ data.
Proof.
  intros Hnf Hzero Hmax Halloc Hne Hbudget. unfold returns_well_formed_items.
  destruct (process σ data) as [σ' r] eqn:Hrun. cbn [fst snd].
  apply process_data_loop in Hrun as (new & Hloop & [[-> _] | (_ & -> & _)]);
    [| contradiction].
  apply (process_loop_no_faults (heap σ) Hnf data σ 0 [] σ' new []) in Hloop
    as (new' & Hnew & Hall & Herr);
    [| rewrite app_nil_r; reflexivity | assumption | lia].
  simpl in Hnew. subst new'.
  exists new. split; [reflexivity |].
  split; [| split; [assumption | lia]].
  apply Forall2_length in Hall.
  pose proof (List.filter_length (well_formed (heap σ)) data) as Hpart.
  fold (malformed (heap σ)) in Hpart.
  change (λ x, negb (well_formed (heap σ) x)) with (malformed (heap σ)) in Hpart.
  lia.
Qed.


End ProcessingFacts.

(** Three calls on one instance with the batch of the error-recovery test:
    two items fail in each of the first two calls; the third call starts at
    4, stops at its first failure, and leaves the counter at 5.  Of the 10
    items taken in all, 5 have failed and 5 were returned. *)
Lemma error_count_of_three_calls :
  let run := process_batches steady_random ticking_clock (new store0)
               [batch0; batch0; batch0] in
  item_failures steady_random ticking_clock (new store0) batch0
  = [false; true; true; false]
  ∧ cumulative_failures steady_random ticking_clock (new store0) [batch0; batch0; batch0]
    = 5%nat
  ∧ cumulative_attempts steady_random ticking_clock (new store0) [batch0; batch0; batch0]
    = 10%nat
  ∧ returned_items (snd run) = 5%nat
  ∧ error_count (fst run) = 5.
Proof. repeat split. Qed.

Lemma no_faults_steady : no_faults steady_random.
Proof. intros i. reflexivity. Qed.

Lemma process_data_partial_result_witness :
  returns_well_formed_items steady_random ticking_clock (new store0) batch0.
Proof.
  apply (process_data_partial_result steady_random ticking_clock (new store0) batch0).
  - intros i. reflexivity.
  - reflexivity.
  - reflexivity.
  - repeat (constructor; [intros l Hl; inversion Hl; simpl; lia |]); constructor.
  - discriminate.
  - vm_compute. lia.
Defined.

(** C5 as stated fails: after five malformed items the processor stops, and
    the valid record that follows is not returned. *)
Lemma budget_exhausted_before_valid_item :
  no_faults steady_random
  ∧ error_count (new store1) = 0 ∧ max_errors (new store1) = 5
  ∧ Forall (allocated (heap (new store1))) batch1
  ∧ ¬ returns_well_formed_items steady_random ticking_clock (new store1) batch1.
Proof.
  split; [exact no_faults_steady |].
  split; [reflexivity |]. split; [reflexivity |].
  split; [repeat (constructor; [intros l Hl; inversion Hl; simpl; lia |]); constructor |].
  intros (out & Hout & Hlen & _).
  vm_compute in Hout. injection Hout as <-.
  vm_compute in Hlen. discriminate.
Qed.



Lemma process_data_leaves_inputs_untouched_witness :
  let σ' := fst (process_data steady_random ticking_clock (new store0) batch0) in
  (∀ l o, heap (new store0) !! l = Some o → heap σ' !! l = Some o)
  ∧ ∀ out,
      snd (process_data steady_random ticking_clock (new store0) batch0) = inr out →
      NoDup out
      ∧ Forall (λ v, ∃ l', v = VRef l' ∧ heap (new store0) !! l' = None) out
      ∧ ∃ inputs,
          inputs `sublist_of` batch0
          ∧ Forall2 (transformed_copy (heap (new store0)) (heap σ')) inputs out.
Proof.
  apply (process_data_leaves_inputs_untouched steady_random ticking_clock
           (new store0) batch0).
  repeat (constructor; [intros l Hl; inversion Hl; simpl; lia |]); constructor.
Defined.

End Processor.

(** ** More on [retry_with_backoff] *)

Module RetryFacts.
Import Retry.

Lemma py_min_le_l (a b : Q) : (py_min a b <= a)%Q.
Proof.
  unfold py_min. destruct (b ?= a)%Q eqn:Hc.
  - apply Qle_refl.
  - apply Qlt_le_weak. exact Hc.
  - apply Qle_refl.
Qed.

Lemma py_min_le_r (a b : Q) : (py_min a b <= b)%Q.
Proof.
  unfold py_min. destruct (b ?= a)%Q eqn:Hc.
  - apply Qle_alt. rewrite <- Qcompare_antisym, Hc. discriminate.
  - apply Qle_refl.
  - apply Qle_alt. rewrite <- Qcompare_antisym, Hc. discriminate.
Qed.

Section AnyOperation.
Context {World Result Exn : Type}.
Variable func : World → World * (Exn + Result).
Variable sleep_limit : Q.

(** What any run of the loop adds to the trace, whatever the operation does
    and whatever the parameters are. *)
Lemma retry_loop_bounds n b m attempts :
  ∀ last_exc st st' r,
    retry_loop func sleep_limit n b m attempts last_exc st = (st', r) →
    ∃ tr,
      trace st' = trace st ++ tr
      ∧ (calls tr ≤ length attempts)%nat
      ∧ (length (sleeps tr) ≤ calls tr)%nat
      ∧ Forall (λ d, (0 <= d)%Q ∧ (d <= m)%Q) (sleeps tr)
      ∧ (∀ a, r = inr a → last tr = Some EvCall)
      ∧ (∀ e, r = inl (Failure e) → calls tr = length attempts).
Proof.
  induction attempts as [| attempt rest IH]; intros last_exc st st' r Hrun.
  - injection Hrun as <- <-. exists []. rewrite app_nil_r.
    repeat split; try constructor; try reflexivity. intros a Ha. discriminate.
  - cbn [retry_loop] in Hrun.
    destruct (func (world st)) as [w' [e | a]].
    + destruct (attempt <? n - 1).
      * destruct (times_pow2 b attempt) as [product |].
        -- cbv zeta in Hrun. unfold time_sleep in Hrun.
           destruct (Qle_bool 0 _) eqn:Hpos in Hrun.
           ++ destruct (Qle_bool _ (longest_sleep sleep_limit)) in Hrun.
              ** apply IH in Hrun as (tr & Htr & Hcalls & Hsl & Hrange & Hret & Hall).
                 cbn [trace] in Htr.
                 exists (EvCall :: EvSleep (py_min product m) :: tr).
                 rewrite Htr, <- !app_assoc. unfold calls, sleeps in *. cbn.
                 repeat split; try lia; try assumption.
                 --- constructor; [| assumption].
                     split; [apply Qle_bool_iff; assumption | apply py_min_le_r].
                 --- intros a Ha. specialize (Hret a Ha).
                     destruct tr as [| ev tr']; [discriminate |].
                     rewrite <- Hret. reflexivity.
                 --- intros x Hx. rewrite (Hall x Hx). reflexivity.
              ** injection Hrun as <- <-. exists [EvCall]. unfold calls, sleeps. cbn.
                 repeat split; try lia; try constructor; discriminate.
           ++ injection Hrun as <- <-. exists [EvCall]. unfold calls, sleeps. cbn.
              repeat split; try lia; try constructor; discriminate.
        -- injection Hrun as <- <-. exists [EvCall]. unfold calls, sleeps. cbn.
           repeat split; try lia; try constructor; discriminate.
      * apply IH in Hrun as (tr & Htr & Hcalls & Hsl & Hrange & Hret & Hall).
        cbn [trace] in Htr.
        exists (EvCall :: tr).
        rewrite Htr, <- !app_assoc. unfold calls, sleeps in *. cbn.
        repeat split; try lia; try assumption.
        -- intros a Ha. specialize (Hret a Ha).
           destruct tr as [| ev tr']; [discriminate |].
           rewrite <- Hret. reflexivity.
        -- intros x Hx. rewrite (Hall x Hx). reflexivity.
    + injection Hrun as <- <-. exists [EvCall]. unfold calls, sleeps. cbn.
      repeat split; try lia; try constructor.
      intros x Hx. discriminate.
Qed.

(** X1.  With [max_attempts <= 0] the loop body never runs: the operation is
    not invoked, nothing is slept, and [raise last_exception] raises
    [TypeError], because [last_exception] is still [None]. *)
Theorem retry_without_attempts (n : Z) (b : pynum) (m : Q) (w : World) :
  n ≤ 0 →
  retry_with_backoff func sleep_limit n b m w = (Machine w [], inl TypeError_raise_None).
Proof.
  intros Hn. unfold retry_with_backoff, py_range.
  replace (Z.to_nat n) with 0%nat by lia. reflexivity.
Qed.

(** X2.  Whatever the operation does and whatever the parameters are, a run
    invokes the operation at most [max_attempts] times, never pauses more
    often than it has invoked the operation, and every pause it makes lies
    between 0 and [max_delay].  A result is returned right after the call
    that produced it, and the operation's exception is re-raised only after
    all [max_attempts] attempts were made. *)
Theorem retry_stays_within_policy (n : Z) (b : pynum) (m : Q) (w : World) :
  let run := retry_with_backoff func sleep_limit n b m w in
  let tr := trace (fst run) in
  (calls tr ≤ Z.to_nat n)%nat
  ∧ (length (sleeps tr) ≤ calls tr)%nat
  ∧ Forall (λ d, (0 <= d)%Q ∧ (d <= m)%Q) (sleeps tr)
  ∧ (∀ a, snd run = inr a → last tr = Some EvCall)
  ∧ (∀ e, snd run = inl (Failure e) → calls tr = Z.to_nat n).
Proof.
  intros run tr. subst tr run. unfold retry_with_backoff.
  destruct (retry_loop func sleep_limit n b m (py_range n) None (Machine w []))
    as [st' r] eqn:Hrun.
  apply retry_loop_bounds in Hrun as (tr & Htr & Hcalls & Hsl & Hrange & Hret & Hall).
  cbn [trace app] in Htr. cbn [fst snd]. rewrite Htr.
  unfold py_range in Hcalls, Hall. rewrite length_map, length_seq in Hcalls, Hall.
  repeat split; assumption.
Qed.

(** X3.  When the first pause would be negative (a negative [base_delay] or
    [max_delay]) and the first attempt fails with more attempts allowed,
    [time.sleep] refuses the duration ([ValueError]; [OverflowError] when it
    lies below the range of the conversion): the run ends there, after a
    single invocation, and the operation's own exception is lost. *)
Theorem retry_negative_delay (n : Z) (b : pynum) (m : Q) (w : World) :
  2 ≤ n →
  fails_at func w 0 →
  (num_value b < 0)%Q ∨ (m < 0)%Q →
  retry_with_backoff func sleep_limit n b m w
  = (Machine (call_world func w 1) [EvCall], inl ValueError_sleep).
Proof.
  intros Hn [e He] Hneg. unfold retry_with_backoff, py_range.
  replace (Z.to_nat n) with (S (Z.to_nat n - 1)) by lia.
  cbn [seq map retry_loop world trace app].
  unfold call_result in He. cbn [call_world] in *.
  destruct (func w) as [w' r]. cbn [fst snd] in *. subst r.
  assert (Hlt : (Z.of_nat 0 <? n - 1) = true) by (apply Z.ltb_lt; lia).
  rewrite Hlt.
  assert (Hprod : times_pow2 b (Z.of_nat 0) = Some (num_value b * 1)%Q)
    by (destruct b; reflexivity).
  rewrite Hprod. cbv zeta. unfold time_sleep.
  assert (Hsleep : Qle_bool 0 (py_min (num_value b * 1) m) = false).
  { destruct (Qle_bool 0 _) eqn:Hle; [| reflexivity].
    apply Qle_bool_iff in Hle. exfalso.
    destruct Hneg as [Hb | Hm].
    - apply (Qlt_not_le _ _ Hb).
      eapply Qle_trans; [exact Hle |].
      eapply Qle_trans; [apply py_min_le_l |].
      rewrite Qmult_1_r. apply Qle_refl.
    - apply (Qlt_not_le _ _ Hm).
      eapply Qle_trans; [exact Hle | apply py_min_le_r]. }
  rewrite Hsleep. reflexivity.
Qed.

End AnyOperation.

Lemma retry_without_attempts_witness :
  retry_with_backoff always_failing 0 0 (NFloat 1) 60 tt
  = (Machine tt [], inl TypeError_raise_None).
Proof. apply (retry_without_attempts always_failing 0 0 (NFloat 1) 60 tt). lia. Defined.

Lemma retry_negative_delay_witness :
  retry_with_backoff always_failing 0 3 (NFloat (-1)) 60 tt
  = (Machine tt [EvCall], inl ValueError_sleep).
Proof.
  apply (retry_negative_delay always_failing 0 3 (NFloat (-1)) 60 tt).
  - lia.
  - eexists. reflexivity.
  - left. reflexivity.
Defined.

End RetryFacts.

(** ** [unreliable_network_call] and [fetch_user_data] *)

Module Network.
Import Retry.

Local Open Scope string_scope.
Local Open Scope list_scope.
Local Open Scope Z_scope.

(** The part of the world the simulated network call reads: how often
    [random.random] has been called, and how often the program itself has
    called [time.time] (line 42).  The readings the [logging] module makes
    for its own records are not counted. *)
Record env := Env { random_calls : nat; time_calls : nat }.

Inductive exn :=
  | NetworkError.              (* "Simulated network failure" *)

(** The float [0.4], exactly: the success rate [fetch_user_data] passes. *)
Definition low_success_rate : Q := 3602879701896397 # 9007199254740992.

(** [str(n)] for an integer, as an f-string renders it. *)
Definition str (n : Z) : string := pretty n.

(** The fallback record of [fetch_user_data] (lines 321-327). *)
Definition fallback_data (user_id : Z) : gmap string pyval :=
  <["id" := VInt user_id]>
  (<["name" := VStr "Guest User"]>
  (<["email" := VStr "guest@example.com"]>
  (<["status" := VStr "fallback"]>
  (<["last_seen" := VNone]> ∅)))).

(** The record built from a network response (lines 338-344). *)
Definition user_data (user_id : Z) (last_seen : pyval) : gmap string pyval :=
  <["id" := VInt user_id]>
  (<["name" := VStr ("User " +:+ str user_id)]>
  (<["email" := VStr ("user" +:+ str user_id +:+ "@example.com")]>
  (<["status" := VStr "active"]>
  (<["last_seen" := last_seen]> ∅)))).

Section Simulation.
(** The values [random.random()] returns, call after call, and the values
    the program's own calls of [time.time()] return, one after the other. *)
Variable random_src : nat → Q.
Variable time_src : nat → Q.

(** What the platform lets [time.sleep] do. *)
Variable sleep_limit : Q.

(** [unreliable_network_call(success_rate)] (lines 26-42) *)
Definition unreliable_network_call (success_rate : Q) (e : env)
    : env * (exn + gmap string pyval) :=
  let r := random_src (random_calls e) in
  let e := Env (S (random_calls e)) (time_calls e) in
  if Processor.Qlt_bool success_rate r      (* [random.random() > success_rate] *)
  then (e, inl NetworkError)
  else
    let t := time_src (time_calls e) in
    let e := Env (random_calls e) (S (time_calls e)) in
    (e, inr (<["status" := VStr "success"]>
             (<["data" := VStr "Important data"]>
             (<["timestamp" := VFloat (FFin t)]> ∅)))).

(** [fetch_user_data(user_id)] (lines 310-352).  Every exception raised in
    the [try] block, a [KeyError] of [result["timestamp"]] included, ends in
    the fallback record. *)
Definition fetch_user_data (user_id : Z) (e : env)
    : machine (World := env) * gmap string pyval :=
  let '(st, r) :=
    retry_with_backoff (unreliable_network_call low_success_rate) sleep_limit
      3 (NFloat 1) 60 e in
  match r with
  | inr result =>
      match result !! "timestamp" with
      | Some last_seen => (st, user_data user_id last_seen)
      | None => (st, fallback_data user_id)
      end
  | inl _ => (st, fallback_data user_id)
  end.

(** Attempt number [i] of a fetch started in [e] fails: its draw exceeds the
    success rate. *)
Definition attempt_fails (e : env) (i : nat) : Prop :=
  (low_success_rate < random_src (i + random_calls e))%Q.

Definition attempt_fails_bool (e : env) (i : nat) : bool :=
  Processor.Qlt_bool low_success_rate (random_src (i + random_calls e)).

Lemma Qlt_bool_iff (x y : Q) : Processor.Qlt_bool x y = true ↔ (x < y)%Q.
Proof.
  unfold Processor.Qlt_bool. rewrite Qlt_alt.
  destruct (x ?= y)%Q; split; congruence.
Qed.

Lemma attempt_fails_reflect e i : attempt_fails_bool e i = true ↔ attempt_fails e i.
Proof. apply Qlt_bool_iff. Qed.

Lemma attempt_fails_false e i : attempt_fails_bool e i = false ↔ ¬ attempt_fails e i.
Proof.
  rewrite <- attempt_fails_reflect. destruct (attempt_fails_bool e i); split; congruence.
Qed.

(** The four ways a fetch can go, by the outcome of its draws. *)
Lemma fetch_user_data_cases (user_id : Z) (e : env) :
  let rc := random_calls e in
  let tc := time_calls e in
  let seen := VFloat (FFin (time_src tc)) in
  fetch_user_data user_id e
  = if attempt_fails_bool e 0 then
      if attempt_fails_bool e 1 then
        if attempt_fails_bool e 2 then
          (Machine (Env (3 + rc) tc) [EvCall; EvSleep 1; EvCall; EvSleep 2; EvCall],
           fallback_data user_id)
        else
          (Machine (Env (3 + rc) (S tc)) [EvCall; EvSleep 1; EvCall; EvSleep 2; EvCall],
           user_data user_id seen)
      else
        (Machine (Env (2 + rc) (S tc)) [EvCall; EvSleep 1; EvCall], user_data user_id seen)
    else
      (Machine (Env (1 + rc) (S tc)) [EvCall], user_data user_id seen).
Proof.
  intros rc tc seen. subst rc tc seen.
  unfold attempt_fails_bool, fetch_user_data, retry_with_backoff.
  change (py_range 3) with [0; 1; 2].
  cbn [retry_loop world trace app Nat.add].
  unfold unreliable_network_call at 1. cbn [random_calls time_calls].
  destruct (Processor.Qlt_bool low_success_rate (random_src (random_calls e))); [| reflexivity].
  change (0 <? 3 - 1) with true.
  change (times_pow2 (NFloat 1) 0) with (Some 1%Q). cbv beta iota zeta.
  change (py_min 1 60) with 1%Q.
  rewrite time_sleep_short by (apply Qle_bool_iff; reflexivity).
  cbn [retry_loop world trace app].
  unfold unreliable_network_call at 1. cbn [random_calls time_calls].
  destruct (Processor.Qlt_bool low_success_rate (random_src (S (random_calls e))));
    [| reflexivity].
  change (1 <? 3 - 1) with true.
  change (times_pow2 (NFloat 1) 1) with (Some 2%Q). cbv beta iota zeta.
  change (py_min 2 60) with 2%Q.
  rewrite time_sleep_short by (apply Qle_bool_iff; reflexivity).
  cbn [retry_loop world trace app].
  unfold unreliable_network_call at 1. cbn [random_calls time_calls].
  destruct (Processor.Qlt_bool low_success_rate (random_src (S (S (random_calls e)))));
    reflexivity.
Qed.

(** X4.  [unreliable_network_call] draws exactly one random number and fails
    exactly when the draw exceeds [success_rate]; it reads the clock only when
    it succeeds, and the response then carries that reading.  As draws lie in
    the interval from 0 to 1 (1 excluded), a success rate of 1 or more never
    fails and a negative one always fails. *)
Theorem network_call_by_rate (success_rate : Q) (e : env) :
  (0 <= random_src (random_calls e))%Q →
  (random_src (random_calls e) < 1)%Q →
  let run := unreliable_network_call success_rate e in
  random_calls (fst run) = S (random_calls e)
  ∧ (snd run = inl NetworkError ∧ time_calls (fst run) = time_calls e
     ↔ (success_rate < random_src (random_calls e))%Q)
  ∧ ((success_rate < random_src (random_calls e))%Q
     ∨ ∃ response,
         snd run = inr response
         ∧ response !! "status" = Some (VStr "success")
         ∧ response !! "timestamp" = Some (VFloat (FFin (time_src (time_calls e))))
         ∧ time_calls (fst run) = S (time_calls e))
  ∧ ((1 <= success_rate)%Q → ∃ response, snd run = inr response)
  ∧ ((success_rate < 0)%Q → snd run = inl NetworkError).
Proof.
  intros Hlo Hhi run. subst run. unfold unreliable_network_call.
  destruct (Processor.Qlt_bool success_rate (random_src (random_calls e))) eqn:Hdraw;
    cbn [fst snd random_calls time_calls].
  - apply Qlt_bool_iff in Hdraw.
    split; [reflexivity |]. split; [split; auto |]. split; [left; assumption |].
    split.
    + intros Hrate. exfalso. apply (Qlt_irrefl 1).
      eapply Qle_lt_trans; [exact Hrate |]. eapply Qlt_trans; eassumption.
    + intros _. reflexivity.
  - assert (Hok : ¬ (success_rate < random_src (random_calls e))%Q).
    { intros H. apply Qlt_bool_iff in H. congruence. }
    split; [reflexivity |].
    split; [split; [intros [[=] _] | intros H; contradiction] |].
    split; [right; eexists; repeat split; reflexivity |].
    split; [intros _; eexists; reflexivity |].
    intros Hneg. exfalso. apply Hok. eapply Qlt_le_trans; eassumption.
Qed.

(** X5.  [fetch_user_data] always returns a record whose [id] is the
    requested one.  It is the fallback record ("Guest User", status
    [fallback], no [last_seen]) exactly when all three attempts fail, and
    otherwise the active record of that user, whose [last_seen] is the clock
    reading of the successful call. *)
Theorem fetch_user_data_result (user_id : Z) (e : env) :
  let out := snd (fetch_user_data user_id e) in
  out !! "id" = Some (VInt user_id)
  ∧ (attempt_fails e 0 ∧ attempt_fails e 1 ∧ attempt_fails e 2 →
     out = fallback_data user_id)
  ∧ (¬ (attempt_fails e 0 ∧ attempt_fails e 1 ∧ attempt_fails e 2) →
     out = user_data user_id (VFloat (FFin (time_src (time_calls e)))))
  ∧ (out !! "status" = Some (VStr "fallback")
     ↔ attempt_fails e 0 ∧ attempt_fails e 1 ∧ attempt_fails e 2).
Proof.
  intros out. subst out. rewrite fetch_user_data_cases. cbv zeta.
  destruct (attempt_fails_bool e 0) eqn:H0;
    [apply attempt_fails_reflect in H0 | apply attempt_fails_false in H0];
  (destruct (attempt_fails_bool e 1) eqn:H1;
    [apply attempt_fails_reflect in H1 | apply attempt_fails_false in H1]);
  (destruct (attempt_fails_bool e 2) eqn:H2;
    [apply attempt_fails_reflect in H2 | apply attempt_fails_false in H2]);
  cbn [snd];
  (split; [reflexivity |]);
  (split; [intros (? & ? & ?); first [reflexivity | contradiction] |]);
  (split; [intros Hn; first [reflexivity | exfalso; apply Hn; auto] |]);
  (split; [intros Hs; first [by auto | by vm_compute in Hs]
          | intros (? & ? & ?); first [reflexivity | contradiction]]).
Qed.

(** X6.  A fetch stops at its first successful attempt: when attempt [k]
    (of 0, 1, 2) is the first to succeed it has made [k + 1] network calls
    and random draws, and the pauses 1 then 2 as far as [k] of them; when all
    three fail it has made three calls and draws, and both pauses.  It never
    pauses for more than 3 seconds in all. *)
Theorem fetch_user_data_cost (user_id : Z) (e : env) :
  let st := fst (fetch_user_data user_id e) in
  (∀ k, (k < 3)%nat →
     (∀ i, (i < k)%nat → attempt_fails e i) → ¬ attempt_fails e k →
     calls (trace st) = S k
     ∧ sleeps (trace st) = take k [1%Q; 2%Q]
     ∧ random_calls (world st) = (S k + random_calls e)%nat)
  ∧ (attempt_fails e 0 ∧ attempt_fails e 1 ∧ attempt_fails e 2 →
     calls (trace st) = 3%nat
     ∧ sleeps (trace st) = [1%Q; 2%Q]
     ∧ random_calls (world st) = (3 + random_calls e)%nat)
  ∧ (foldr Qplus 0%Q (sleeps (trace st)) <= 3)%Q.
Proof.
  intros st. subst st. rewrite fetch_user_data_cases. cbv zeta.
  destruct (attempt_fails_bool e 0) eqn:H0;
    [apply attempt_fails_reflect in H0 | apply attempt_fails_false in H0];
  [destruct (attempt_fails_bool e 1) eqn:H1;
    [apply attempt_fails_reflect in H1 | apply attempt_fails_false in H1];
   [destruct (attempt_fails_bool e 2) eqn:H2;
    [apply attempt_fails_reflect in H2 | apply attempt_fails_false in H2] |] |];
  cbn [fst trace world random_calls time_calls];
  (split; [| split; [| by vm_compute]]).
  all: try (intros (? & ? & ?); first [by repeat split | contradiction]).
  all: intros k Hk Hbefore Hnow;
    destruct k as [| [| [| k]]]; try lia;
    try contradiction;
    try (exfalso; apply H0; apply (Hbefore 0%nat); lia);
    try (exfalso; apply H1; apply (Hbefore 1%nat); lia);
    by repeat split.
Qed.

End Simulation.

Lemma network_call_by_rate_witness :
  let run := unreliable_network_call (λ _, 3 # 10) (λ _, 0%Q) (7 # 10) (Env 0 0) in
  random_calls (fst run) = 1%nat
  ∧ ∃ response, snd run = inr response.
Proof.
  pose proof (network_call_by_rate (λ _, 3 # 10) (λ _, 0%Q) (7 # 10) (Env 0 0)) as H.
  cbv zeta in H.
  destruct H as (Hdraws & _ & _ & _ & _); [by vm_compute | by vm_compute |].
  split; [exact Hdraws | eexists; reflexivity].
Defined.

End Network.

(** ** [safe_file_operation] *)

Module Files.

Local Open Scope string_scope.
Local Open Scope list_scope.

(** An open file object. *)
Definition handle := nat.

Inductive exn :=
  | FileNotFoundError
  | PermissionError
  | OtherException (name : string)
  | RuntimeError_generator_didnt_stop.   (* raised by [contextlib] *)

(** The lines the context manager logs. *)
Inductive log_line :=
  | LogOpened                  (* "Successfully opened ..." *)
  | LogNotFound                (* "File not found: ..." *)
  | LogDenied                  (* "Permission denied accessing: ..." *)
  | LogUnexpected              (* "Unexpected error with file ..." *)
  | LogClosed                  (* "Closed file: ..." *)
  | LogCloseFailed.            (* "Error closing file ..." *)

(** What the context manager acts on: the calls of [close] made so far, and
    the log. *)
Record fs := Fs { close_calls : list handle; log : list log_line }.

Definition logger (line : log_line) (st : fs) : fs :=
  Fs (close_calls st) (log st ++ [line]).

(** Where the generator function is suspended. *)
Inductive position :=
  | InTry (file_handle : handle)               (* at [yield file_handle], line 193 *)
  | InHandler (file_handle : option handle).   (* at a [yield None], lines 196, 199, 202 *)

(** The local variable [file_handle] of a suspended generator. *)
Definition file_handle_of (pos : position) : option handle :=
  match pos with
  | InTry h => Some h
  | InHandler fh => fh
  end.

(** What [gen.throw] gives back to [contextlib]. *)
Inductive thrown :=
  | Yielded (pos : position)
  | Reraised (e : exn).

(** The [except] clause that catches [e] logs its line (lines 194-202); each
    of the three then yields [None]. *)
Definition handler (e : exn) (st : fs) : fs :=
  match e with
  | FileNotFoundError => logger LogNotFound st
  | PermissionError => logger LogDenied st
  | _ => logger LogUnexpected st
  end.

Section SafeFileOperation.
(** The file system: what [open(filename, mode)] does, and whether closing a
    file object raises. *)
Variable open_ : string → string → exn + handle.
Variable close_raises : handle → bool.

(** The [finally] clause (lines 203-209); a file object is always true. *)
Definition finally_clause (file_handle : option handle) (st : fs) : fs :=
  match file_handle with
  | Some h =>
      let st := Fs (close_calls st ++ [h]) (log st) in
      if close_raises h then logger LogCloseFailed st else logger LogClosed st
  | None => st
  end.

(** The generator from its start to its first [yield] (lines 189-202): the
    position it is suspended at and the value it yields. *)
Definition gen_start (filename mode : string) (st : fs) : fs * position * option handle :=
  match open_ filename mode with
  | inr h => (logger LogOpened st, InTry h, Some h)
  | inl e => (handler e st, InHandler None, None)
  end.

(** [next(gen)] on a suspended generator: it runs to its end through the
    [finally] clause. *)
Definition gen_next (pos : position) (st : fs) : fs :=
  finally_clause (file_handle_of pos) st.

(** [gen.throw(e)]: inside the [try], one of the handlers catches [e] and
    yields again; inside a handler, [e] leaves the generator through the
    [finally] clause. *)
Definition gen_throw (e : exn) (pos : position) (st : fs) : fs * thrown :=
  match pos with
  | InTry h => (handler e st, Yielded (InHandler (Some h)))
  | InHandler fh => (finally_clause fh st, Reraised e)
  end.

(** [gen.close()]: [GeneratorExit] is no [Exception], so only the [finally]
    clause runs. *)
Definition gen_close (pos : position) (st : fs) : fs :=
  finally_clause (file_handle_of pos) st.

(** [with safe_file_operation(filename, mode) as f: body(f)], under the
    protocol of [contextlib.contextmanager].  The third component is the
    generator left suspended when [contextlib] gives up on it; it is closed
    by [contextlib] itself (from Python 3.12 on) or when it is collected. *)
Definition with_safe_file_operation {A : Type} (filename mode : string)
    (body : option handle → fs → fs * (exn + A)) (st : fs)
    : fs * (exn + A) * option position :=
  let '(st, pos, f) := gen_start filename mode st in
  match body f st with
  | (st, inr a) => (gen_next pos st, inr a, None)
  | (st, inl e) =>
      match gen_throw e pos st with
      | (st, Reraised e') => (st, inl e', None)
      | (st, Yielded pos') => (st, inl RuntimeError_generator_didnt_stop, Some pos')
      end
  end.

(** The state once a generator left behind has been closed. *)
Definition finalized (run : fs * option position) : fs :=
  match run with
  | (st, Some pos) => gen_close pos st
  | (st, None) => st
  end.

(** The state in which the body ends, and the value it was given. *)
Definition body_run {A : Type} (filename mode : string)
    (body : option handle → fs → fs * (exn + A)) (st : fs) : fs * (exn + A) :=
  let '(st, _, f) := gen_start filename mode st in body f st.

(** X7.  On every path through the [with] statement, once any generator
    left behind has been closed, the context manager has called [close]
    exactly once on the file it opened, after the body has ended, and on
    nothing else; when the file could not be opened it has closed nothing. *)
Theorem safe_file_operation_closes_once {A : Type} (filename mode : string)
    (body : option handle → fs → fs * (exn + A)) (st : fs) :
  let run := with_safe_file_operation filename mode body st in
  close_calls (finalized (fst (fst run), snd run))
  = close_calls (fst (body_run filename mode body st))
    ++ match open_ filename mode with
       | inr h => [h]
       | inl _ => []
       end.
Proof.
  intros run. subst run.
  unfold with_safe_file_operation, body_run, gen_start.
  destruct (open_ filename mode) as [e | h].
  - destruct (body None (handler e st)) as [stb [e' | a]]; cbn; rewrite app_nil_r; reflexivity.
  - destruct (body (Some h) (logger LogOpened st)) as [stb [e' | a]]; cbn.
    + destruct e'; cbn; destruct (close_raises h); reflexivity.
    + destruct (close_raises h); reflexivity.
Qed.

(** X8.  When [open] raises (a missing file, a permission error or any other
    exception), the body is given [None], the handler of that exception has
    logged its line, and the [with] statement ends the way the body ends:
    with its result, or with the very exception the body raised. *)
Theorem safe_file_operation_open_fails {A : Type} (filename mode : string)
    (body : option handle → fs → fs * (exn + A)) (st : fs) (e : exn) :
  open_ filename mode = inl e →
  with_safe_file_operation filename mode body st
  = (body None (handler e st), None)
  ∧ log (handler e st)
    = log st ++ [match e with
                 | FileNotFoundError => LogNotFound
                 | PermissionError => LogDenied
                 | _ => LogUnexpected
                 end].
Proof.
  intros Hopen. unfold with_safe_file_operation, gen_start. rewrite Hopen.
  split.
  - destruct (body None (handler e st)) as [stb [e' | a]]; reflexivity.
  - destruct e; reflexivity.
Qed.

(** X9.  When the file opens and the body ends normally, the [with]
    statement ends normally with the body's result and the file has been
    closed, also when [close] itself raises: that exception is logged and
    goes no further. *)
Theorem safe_file_operation_body_returns {A : Type} (filename mode : string)
    (body : option handle → fs → fs * (exn + A)) (st stb : fs) (h : handle) (a : A) :
  open_ filename mode = inr h →
  body (Some h) (logger LogOpened st) = (stb, inr a) →
  with_safe_file_operation filename mode body st
  = (Fs (close_calls stb ++ [h])
        (log stb ++ [if close_raises h then LogCloseFailed else LogClosed]),
     inr a, None).
Proof.
  intros Hopen Hbody. unfold with_safe_file_operation, gen_start.
  rewrite Hopen, Hbody. unfold gen_next, finally_clause. cbn.
  destruct (close_raises h); reflexivity.
Qed.

(** X10.  When the file opens and the body raises an exception, that
    exception does not reach the caller: one of the handlers around the
    [yield] catches it and yields a second time, so the caller gets the
    [RuntimeError] of [contextlib] ("generator didn't stop after throw()")
    whatever the body raised, and the file is closed only when the suspended
    generator is. *)
Theorem safe_file_operation_body_raises {A : Type} (filename mode : string)
    (body : option handle → fs → fs * (exn + A)) (st stb : fs) (h : handle) (e : exn) :
  open_ filename mode = inr h →
  body (Some h) (logger LogOpened st) = (stb, inl e) →
  with_safe_file_operation filename mode body st
  = (handler e stb, inl RuntimeError_generator_didnt_stop, Some (InHandler (Some h)))
  ∧ close_calls (handler e stb) = close_calls stb
  ∧ close_calls (gen_close (InHandler (Some h)) (handler e stb)) = close_calls stb ++ [h].
Proof.
  intros Hopen Hbody. unfold with_safe_file_operation, gen_start.
  rewrite Hopen, Hbody. cbn.
  repeat split; destruct e; cbn; try reflexivity; destruct (close_raises h); reflexivity.
Qed.

End SafeFileOperation.

(** *** Concrete file systems *)

(** A file system with no file at all, and one in which every file opens. *)
Definition no_files (_ _ : string) : exn + handle := inl FileNotFoundError.
Definition any_file (_ _ : string) : exn + handle := inr 7%nat.
Definition close_ok (_ : handle) : bool := false.

(** A body that reads nothing and returns, and one that raises. *)
Definition idle_body (_ : option handle) (st : fs) : fs * (exn + unit) := (st, inr tt).
Definition failing_body (_ : option handle) (st : fs) : fs * (exn + unit) :=
  (st, inl (OtherException "KeyError")).

Lemma safe_file_operation_open_fails_witness :
  with_safe_file_operation no_files close_ok "nonexistent_file.txt" "r" idle_body (Fs [] [])
  = (Fs [] [LogNotFound], inr tt, None).
Proof.
  exact (proj1 (safe_file_operation_open_fails no_files close_ok "nonexistent_file.txt" "r"
                  idle_body (Fs [] []) FileNotFoundError eq_refl)).
Defined.

Lemma safe_file_operation_body_returns_witness :
  with_safe_file_operation any_file close_ok "data.txt" "r" idle_body (Fs [] [])
  = (Fs [7%nat] [LogOpened; LogClosed], inr tt, None).
Proof.
  exact (safe_file_operation_body_returns any_file close_ok "data.txt" "r"
           idle_body (Fs [] []) (Fs [] [LogOpened]) 7%nat tt eq_refl eq_refl).
Defined.

Lemma safe_file_operation_body_raises_witness :
  with_safe_file_operation any_file close_ok "data.txt" "r" failing_body (Fs [] [])
  = (Fs [] [LogOpened; LogUnexpected], inl RuntimeError_generator_didnt_stop,
     Some (InHandler (Some 7%nat))).
Proof.
  exact (proj1 (safe_file_operation_body_raises any_file close_ok "data.txt" "r"
                  failing_body (Fs [] []) (Fs [] [LogOpened]) 7%nat
                  (OtherException "KeyError") eq_refl eq_refl)).
Defined.

End Files.

(** ** [get_cached_data] *)

Module Cache.

(** [get_cached_data(key)] (lines 288-307), on the dictionary held in
    [self.cache]; a lookup with a string key raises nothing, so the [except]
    clause is never entered. *)
Definition get_cached_data (cache : gmap string pyval) (key : string) : pyval :=
  match cache !! key with
  | Some v => v                (* cache hit *)
  | None => VNone              (* cache miss *)
  end.

(** X11.  What was stored under a key is what [get_cached_data] returns for
    it, other keys are unaffected by the store, and a key that was never
    stored gives [None].  [None] is also what a stored [None] gives, so the
    answer [None] does not tell a miss from a hit. *)
Theorem get_cached_data_round_trip (cache : gmap string pyval) (key : string) (v : pyval) :
  get_cached_data (<[key := v]> cache) key = v
  ∧ (∀ other, other ≠ key →
       get_cached_data (<[key := v]> cache) other = get_cached_data cache other)
  ∧ get_cached_data (delete key cache) key = VNone
  ∧ (get_cached_data cache key = VNone
     ↔ cache !! key = None ∨ cache !! key = Some VNone).
Proof.
  unfold get_cached_data. repeat split.
  - rewrite lookup_insert_eq. reflexivity.
  - intros other Hne. rewrite lookup_insert_ne by congruence. reflexivity.
  - rewrite lookup_delete_eq. reflexivity.
  - destruct (cache !! key) as [w |]; [intros -> | ]; auto.
  - intros [-> | ->]; reflexivity.
Qed.

End Cache.

(** ** More on [ConfigManager] *)

Module ConfigFacts.
Import Config.

Section Loaded.
Variable read_json : string → exn + json_doc.

(** X12.  When the file holds a JSON object, that object becomes the active
    configuration as it is, whatever [validate_config] finds in it: [get]
    answers with the loaded value for every key the object has, and with the
    built-in default (when no fallback is supplied) for a default key the
    object lacks. *)
Theorem loaded_config_is_kept (file : string) (d : gmap string pyval) :
  read_json file = inr (JObject d) →
  ∃ m,
    new read_json file = inr m
    ∧ config m = d
    ∧ defaults m = builtin_defaults
    ∧ (∀ key v fallback, d !! key = Some v → get m key fallback = v)
    ∧ (∀ key v, d !! key = None → builtin_defaults !! key = Some v →
         get m key VNone = v)
    ∧ (∀ key, d !! key = None → builtin_defaults !! key = None →
         get m key VNone = VNone).
Proof.
  intros Hread. exists (Build_ConfigManager file d builtin_defaults).
  split.
  { unfold new, _load_config, load_body. cbn [config_file]. rewrite Hread. reflexivity. }
  unfold get. cbn [config defaults].
  repeat split.
  - intros key v fb ->. reflexivity.
  - intros key v -> ->. reflexivity.
  - intros key -> ->. reflexivity.
Qed.

End Loaded.

(** A file system holding one file, whose content is the invalid
    configuration of the validation test. *)
Definition one_file (file : string) : exn + json_doc :=
  if String.eqb file "config.json" then inr (JObject invalid_config_data)
  else inl FileNotFoundError.

Lemma loaded_config_is_kept_witness :
  ∃ m, new one_file "config.json" = inr m
       ∧ config m = invalid_config_data
       ∧ get m "cache_size" VNone = VInt (-10)
       ∧ get m "database_url" VNone = VStr "sqlite:///default.db".
Proof.
  destruct (loaded_config_is_kept one_file "config.json" invalid_config_data eq_refl)
    as (m & Hnew & Hcfg & _ & Hloaded & Hdefault & _).
  exists m. split; [exact Hnew |]. split; [exact Hcfg |].
  split; [apply Hloaded; reflexivity | apply Hdefault; reflexivity].
Defined.

End ConfigFacts.

(** ** More on [DataProcessor] *)

Module ProcessorFacts.
Import Processor.

Local Open Scope string_scope.
Local Open Scope list_scope.
Local Open Scope Z_scope.

(** [output] is the record made from the well-formed dictionary [input],
    stamped with [t]. *)
Definition record_of (h h' : list pyobj) (t : Q) (input output : pyval) : Prop :=
  ∃ l d l',
    input = VRef l ∧ h !! l = Some (ODict d) ∧ is_Some (d !! "id")
    ∧ output = VRef l'
    ∧ h' !! l' = Some (ODict (<["status" := status_processed]>
                               (<["processed_at" := VFloat (FFin t)]> d))).

(** The items at the head of a batch that are well formed. *)
Fixpoint leading_well_formed (h : list pyobj) (items : list pyval) : list pyval :=
  match items with
  | [] => []
  | item :: rest =>
      if well_formed h item then item :: leading_well_formed h rest else []
  end.

(** The [processed_at] entry of the dictionary an item refers to. *)
Definition stamp_of (h : list pyobj) (v : pyval) : option Q :=
  match v with
  | VRef l =>
      match h !! l with
      | Some (ODict d) =>
          match d !! "processed_at" with
          | Some (VFloat (FFin t)) => Some t
          | _ => None
          end
      | _ => None
      end
  | _ => None
  end.

(** A processor that has used up its budget. *)
Definition exhausted : state := State store0 5 5 0 0 [].

(** Fault injection that strikes every time: every draw falls below the
    failure rate. *)
Definition all_faults (random_src : nat → Q) : Prop :=
  ∀ i, Qlt_bool (random_src i) failure_rate = true.

(** [random.random] patched to return 0.1, as in the degradation test. *)
Definition faulty_random (_ : nat) : Q := 1 # 10.

Section Facts.
Variable random_src : nat → Q.
Variable time_src : nat → Q.

Abbreviation process_single_item := (_process_single_item random_src time_src).
Abbreviation loop := (process_loop random_src time_src).
Abbreviation process := (process_data random_src time_src).

(** A successful call of [_process_single_item], in full. *)
Lemma process_single_item_success σ item σ1 out :
  process_single_item σ item = (σ1, inr out) →
  ∃ l d,
    item = VRef l ∧ heap σ !! l = Some (ODict d) ∧ is_Some (d !! "id")
    ∧ Qlt_bool (random_src (random_calls σ)) failure_rate = false
    ∧ out = VRef (length (heap σ))
    ∧ σ1 = State (heap σ ++ [ODict (<["status" := status_processed]>
                     (<["processed_at" := VFloat (FFin (time_src (time_calls σ)))]> d))])
             (error_count σ) (max_errors σ) (S (random_calls σ)) (S (time_calls σ))
             (log σ).
Proof.
  unfold _process_single_item.
  destruct item as [| | | | | l]; try discriminate.
  destruct (heap σ !! l) as [[d |] |] eqn:Hl; try discriminate.
  destruct (d !! "id") as [v |] eqn:Hid; [| discriminate].
  destruct (Qlt_bool _ _) eqn:Hdraw; [discriminate |].
  intros [= <- <-]. exists l, d.
  cbn [set_heap tick_time tick_random heap error_count max_errors log
       random_calls time_calls].
  rewrite !setitem_last. repeat split; eauto.
Qed.

(** A failed call does not reach line 283 and leaves processor, store and log
    alone. *)
Lemma process_single_item_failure σ item σ1 e :
  process_single_item σ item = (σ1, inl e) →
  heap σ1 = heap σ ∧ error_count σ1 = error_count σ ∧ max_errors σ1 = max_errors σ
  ∧ log σ1 = log σ ∧ time_calls σ1 = time_calls σ.
Proof.
  unfold _process_single_item.
  destruct item as [| | | | | l]; try (intros [= <- <-]; auto).
  destruct (heap σ !! l) as [[d |] |]; try (intros [= <- <-]; auto).
  destruct (d !! "id"); [| intros [= <- <-]; auto].
  destruct (Qlt_bool _ _); intros [= <- <-]; auto.
Qed.

(** The records the loop returns, one by one: where each comes from and which
    stamp it carries. *)
Lemma process_loop_records h0 items :
  ∀ σ i acc σ' out ext0,
    heap σ = h0 ++ ext0 →
    Forall (allocated h0) items →
    loop σ i items acc = (σ', out) →
    ∃ inputs new,
      inputs `sublist_of` items ∧ out = acc ++ new
      ∧ length inputs = length new
      ∧ time_calls σ' = (time_calls σ + length new)%nat
      ∧ ∀ k input output,
          inputs !! k = Some input → new !! k = Some output →
          record_of h0 (heap σ') (time_src (time_calls σ + k)) input output.
Proof.
  induction items as [| item rest IH]; intros σ i acc σ' out ext0 Hbase Halloc Hrun.
  - injection Hrun as <- <-. exists [], []. rewrite app_nil_r.
    repeat split; [constructor | simpl; lia |]. intros k ? ? Hk. discriminate.
  - apply Forall_cons in Halloc as [Hitem_alloc Halloc].
    cbn [process_loop] in Hrun.
    destruct (process_single_item σ item) as [σ1 [e | out1]] eqn:Hitem.
    + apply process_single_item_failure in Hitem as (Hheap & Hec & Hmax & Hlog & Htime).
      destruct (_ >=? _) in Hrun.
      * injection Hrun as <- <-. exists [], []. rewrite app_nil_r. cbn.
        repeat split; [apply sublist_nil_l | lia |]. intros k ? ? Hk. discriminate.
      * apply (IH _ _ _ _ _ ext0) in Hrun as (inputs & new & Hsub & -> & Hlen & Htc & Hrec);
          [| cbn; congruence | assumption].
        cbn in Htc, Hrec. rewrite Htime in Htc, Hrec.
        exists inputs, new. repeat split; try assumption.
        apply sublist_cons. assumption.
    + apply process_single_item_success in Hitem
        as (l & d & -> & Hl & Hid & _ & -> & ->).
      pose proof Hrun as Heff.
      apply process_loop_effect in Heff as (_ & _ & _ & ext & _ & _ & Hext & _).
      cbn in Hext.
      apply (IH _ _ _ _ _ (ext0 ++ [ODict (<["status" := status_processed]>
               (<["processed_at" := VFloat (FFin (time_src (time_calls σ)))]> d))]))
        in Hrun as (inputs & new & Hsub & -> & Hlen & Htc & Hrec);
        [| cbn; rewrite Hbase, <- app_assoc; reflexivity | assumption].
      cbn in Htc, Hrec.
      exists (VRef l :: inputs), (VRef (length (heap σ)) :: new).
      rewrite <- app_assoc. cbn [length].
      repeat split; [apply sublist_skip; assumption | lia | lia |].
      intros [| k] input output Hin Hout; cbn in Hin, Hout.
      * injection Hin as <-. injection Hout as <-.
        rewrite Nat.add_0_r. exists l, d, (length (heap σ)).
        repeat split; try assumption.
        -- rewrite Hbase in Hl.
           rewrite lookup_app_l in Hl by (apply Hitem_alloc; reflexivity). assumption.
        -- rewrite Hext. rewrite lookup_app_l by (rewrite length_app; simpl; lia).
           rewrite lookup_app_r by lia. rewrite Nat.sub_diag. reflexivity.
      * replace (time_calls σ + S k)%nat with (S (time_calls σ) + k)%nat by lia.
        eapply Hrec; eassumption.
Qed.

(** The records a call returns, with the input each was made from. *)
Lemma process_data_records σ data out :
  Forall (allocated (heap σ)) data →
  snd (process σ data) = inr out →
  ∃ inputs,
    inputs `sublist_of` data
    ∧ length inputs = length out
    ∧ time_calls (fst (process σ data)) = (time_calls σ + length out)%nat
    ∧ ∀ k input output,
        inputs !! k = Some input → out !! k = Some output →
        record_of (heap σ) (heap (fst (process σ data)))
          (time_src (time_calls σ + k)) input output.
Proof.
  intros Halloc Hout.
  destruct (process σ data) as [σ' r] eqn:Hrun. cbn [fst snd] in *. subst r.
  apply process_data_loop in Hrun as (new & Hloop & [[[= <-] _] | ([=] & _)]).
  apply (process_loop_records (heap σ) data σ 0 [] σ' out []) in Hloop
    as (inputs & new & Hsub & -> & Hlen & Htc & Hrec);
    [| rewrite app_nil_r; reflexivity | assumption].
  exists inputs. auto.
Qed.

(** X13.  Every record [process_data] returns was made from an item of the
    batch that is a dictionary with an ['id'] entry, and holds that same
    ['id'], the status ["processed"], a [processed_at] entry, and every other
    entry of its input unchanged; an input entry named [status] or
    [processed_at] is overwritten. *)
Theorem returned_records_keep_their_entries (σ : state) (data out : list pyval) :
  Forall (allocated (heap σ)) data →
  snd (process_data random_src time_src σ data) = inr out →
  ∀ v, v ∈ out →
    ∃ l' d' l d,
      v = VRef l'
      ∧ heap (fst (process_data random_src time_src σ data)) !! l' = Some (ODict d')
      ∧ VRef l ∈ data ∧ heap σ !! l = Some (ODict d)
      ∧ is_Some (d !! "id") ∧ d' !! "id" = d !! "id"
      ∧ d' !! "status" = Some status_processed
      ∧ is_Some (d' !! "processed_at")
      ∧ ∀ key, key ≠ "status" → key ≠ "processed_at" → d' !! key = d !! key.
Proof.
  intros Halloc Hout v Hv.
  destruct (process_data_records σ data out Halloc Hout)
    as (inputs & Hsub & Hlen & _ & Hrec).
  apply list_elem_of_lookup_1 in Hv as [k Hk].
  destruct (lookup_lt_is_Some_2 inputs k) as [input Hinput].
  { rewrite Hlen. eapply lookup_lt_Some. eassumption. }
  destruct (Hrec k input v Hinput Hk) as (l & d & l' & -> & Hl & Hid & -> & Hl').
  eexists l', _, l, d. split; [reflexivity |]. split; [exact Hl' |].
  split; [eapply elem_of_sublist; [eapply list_elem_of_lookup_2; eassumption | assumption] |].
  split; [assumption |]. split; [assumption |].
  split; [rewrite !lookup_insert_ne by discriminate; reflexivity |].
  split; [apply lookup_insert_eq |].
  split; [rewrite lookup_insert_ne by discriminate; rewrite lookup_insert_eq; eauto |].
  intros key Hs Hp. rewrite !lookup_insert_ne by congruence. reflexivity.
Qed.

(** X14.  Every record [process_data] returns is stamped by a call of
    [time.time] of its own (line 283), and the records are stamped in the
    order of the result: record number [k] carries as [processed_at] what the
    [k]-th of these calls returned.  So with a clock that never goes back,
    [processed_at] never decreases along the result. *)
Theorem timestamps_follow_the_clock (σ : state) (data out : list pyval) :
  Forall (allocated (heap σ)) data →
  snd (process_data random_src time_src σ data) = inr out →
  let h' := heap (fst (process_data random_src time_src σ data)) in
  (∀ k v, out !! k = Some v →
     stamp_of h' v = Some (time_src (time_calls σ + k)))
  ∧ ((∀ i j, (i ≤ j)%nat → (time_src i <= time_src j)%Q) →
     ∀ j k vj vk, (j ≤ k)%nat → out !! j = Some vj → out !! k = Some vk →
       ∃ tj tk,
         stamp_of h' vj = Some tj ∧ stamp_of h' vk = Some tk ∧ (tj <= tk)%Q).
Proof.
  intros Halloc Hout h'. subst h'.
  destruct (process_data_records σ data out Halloc Hout)
    as (inputs & Hsub & Hlen & _ & Hrec).
  assert (Hstamp : ∀ k v, out !! k = Some v →
            stamp_of (heap (fst (process σ data))) v
            = Some (time_src (time_calls σ + k))).
  { intros k v Hk.
    destruct (lookup_lt_is_Some_2 inputs k) as [input Hinput].
    { rewrite Hlen. eapply lookup_lt_Some. eassumption. }
    destruct (Hrec k input v Hinput Hk) as (l & d & l' & -> & Hl & Hid & -> & Hl').
    unfold stamp_of. rewrite Hl'.
    rewrite lookup_insert_ne by discriminate. rewrite lookup_insert_eq. reflexivity. }
  split; [exact Hstamp |].
  intros Hclock j k vj vk Hjk Hj Hk.
  exists (time_src (time_calls σ + j)), (time_src (time_calls σ + k)).
  split; [apply Hstamp; assumption |].
  split; [apply Hstamp; assumption |].
  apply Hclock. lia.
Qed.

(** Once the budget is used up, the loop ends at the first item that fails. *)
Lemma process_loop_exhausted h0 :
  no_faults random_src →
  ∀ items σ i acc σ' out ext0,
    heap σ = h0 ++ ext0 →
    Forall (allocated h0) items →
    max_errors σ ≤ error_count σ →
    loop σ i items acc = (σ', out) →
    ∃ new,
      out = acc ++ new
      ∧ Forall2 (transformed_copy h0 (heap σ')) (leading_well_formed h0 items) new
      ∧ error_count σ'
        = error_count σ + (if forallb (well_formed h0) items then 0 else 1).
Proof.
  intros Hnf.
  induction items as [| item rest IH]; intros σ i acc σ' out ext0 Hbase Halloc Hfull Hrun.
  - injection Hrun as <- <-. exists []. rewrite app_nil_r. cbn.
    repeat split; [constructor | lia].
  - apply Forall_cons in Halloc as [Hitem_alloc Halloc].
    assert (Hwf_now : well_formed (heap σ) item = well_formed h0 item)
      by (rewrite Hbase; apply well_formed_ext; assumption).
    cbn [process_loop leading_well_formed forallb] in *.
    destruct (well_formed h0 item) eqn:Hwf; cbn [andb].
    + destruct (process_single_item_well_formed random_src time_src σ item Hnf Hwf_now)
        as (σ1 & out1 & Hitem).
      rewrite Hitem in Hrun.
      apply process_single_item_success in Hitem
        as (l & d & -> & Hl & Hid & _ & -> & ->).
      pose proof Hrun as Heff.
      apply process_loop_effect in Heff as (_ & _ & _ & ext & _ & _ & Hext & _).
      cbn in Hext.
      apply (IH _ _ _ _ _ (ext0 ++ [ODict (<["status" := status_processed]>
               (<["processed_at" := VFloat (FFin (time_src (time_calls σ)))]> d))]))
        in Hrun as (new & -> & Hall & Herr);
        [| cbn; rewrite Hbase, <- app_assoc; reflexivity | assumption | cbn; assumption].
      cbn in Herr.
      exists (VRef (length (heap σ)) :: new). rewrite <- app_assoc.
      repeat split; [| assumption].
      constructor; [| assumption].
      rewrite Hext. eapply copy_made; eassumption.
    + destruct (process_single_item_malformed random_src time_src σ item) as [e Hitem];
        [unfold malformed; rewrite Hwf_now; reflexivity |].
      rewrite Hitem in Hrun. cbn in Hrun.
      assert (Hstop : (error_count σ + 1 >=? max_errors σ) = true)
        by (apply Z.geb_le; lia).
      rewrite Hstop in Hrun. injection Hrun as <- <-.
      exists []. rewrite app_nil_r. cbn. repeat split; constructor.
Qed.

(** X15.  On a processor whose error counter has reached [max_errors] (for
    instance through earlier calls), with fault injection disabled, a call
    on a non-empty batch returns the transformed copies of the well-formed
    items at the head of the batch and nothing after the first malformed
    item, however many valid items follow it. *)
Theorem exhausted_budget_stops_at_first_failure (σ : state) (data : list pyval) :
  no_faults random_src →
  Forall (allocated (heap σ)) data →
  max_errors σ ≤ error_count σ →
  data ≠ [] →
  ∃ out,
    snd (process_data random_src time_src σ data) = inr out
    ∧ length out = length (leading_well_formed (heap σ) data)
    ∧ Forall2 (transformed_copy (heap σ)
                 (heap (fst (process_data random_src time_src σ data))))
        (leading_well_formed (heap σ) data) out
    ∧ error_count (fst (process_data random_src time_src σ data))
      = error_count σ + (if forallb (well_formed (heap σ)) data then 0 else 1).
Proof.
  intros Hnf Halloc Hfull Hne.
  destruct (process σ data) as [σ' r] eqn:Hrun. cbn [fst snd].
  apply process_data_loop in Hrun as (new & Hloop & [[-> _] | (_ & -> & _)]);
    [| contradiction].
  apply (process_loop_exhausted (heap σ) Hnf data σ 0 [] σ' new []) in Hloop
    as (new' & Hnew & Hall & Herr);
    [| rewrite app_nil_r; reflexivity | assumption | assumption].
  simpl in Hnew. subst new'.
  exists new. split; [reflexivity |].
  split; [symmetry; eapply Forall2_length; eassumption |].
  split; assumption.
Qed.

(** Under constant faults every item fails, for one reason or another. *)
Lemma process_single_item_fault σ item :
  all_faults random_src →
  ∃ σ1 e, process_single_item σ item = (σ1, inl e).
Proof.
  intros Hall. unfold _process_single_item.
  destruct item as [| | | | | l]; try (eexists _, _; reflexivity).
  destruct (heap σ !! l) as [[d |] |]; try (eexists _, _; reflexivity).
  destruct (d !! "id"); [| eexists _, _; reflexivity].
  rewrite Hall. eexists _, _. reflexivity.
Qed.

Lemma process_loop_all_faults k :
  all_faults random_src →
  ∀ items σ i acc,
    max_errors σ = error_count σ + Z.of_nat (S k) →
    (S k ≤ length items)%nat →
    ∃ σ',
      loop σ i items acc = (σ', acc)
      ∧ heap σ' = heap σ ∧ error_count σ' = max_errors σ
      ∧ max_errors σ' = max_errors σ ∧ time_calls σ' = time_calls σ
      ∧ log σ' = log σ ++ map Failed (seq i (S k)) ++ [Stopped].
Proof.
  intros Hall.
  induction k as [| k IH]; intros items σ i acc Hbudget Hlen;
    (destruct items as [| item rest]; [simpl in Hlen; lia |]);
    destruct (process_single_item_fault σ item Hall) as (σ1 & e & Hitem);
    cbn [process_loop]; rewrite Hitem;
    apply process_single_item_failure in Hitem as (Hheap & Hec & Hmax & Hlog & Htime);
    cbn.
  - assert (Hstop : (error_count σ1 + 1 >=? max_errors σ1) = true)
      by (apply Z.geb_le; lia).
    rewrite Hstop. eexists. split; [reflexivity |]. cbn.
    rewrite Hlog, <- app_assoc. repeat split; try congruence; lia.
  - assert (Hgo : (error_count σ1 + 1 >=? max_errors σ1) = false).
    { destruct (_ >=? _) eqn:H; [apply Z.geb_le in H; lia | reflexivity]. }
    rewrite Hgo.
    destruct (IH rest (logger (Failed i) (set_error_count (error_count σ1 + 1) σ1))
                (S i) acc) as (σ' & Hrun & Hh & He & Hm & Ht & Hl);
      [cbn; lia | simpl in Hlen; lia |].
    cbn in Hh, He, Hm, Ht, Hl.
    exists σ'. split; [exact Hrun |].
    rewrite Hl, Hlog, <- !app_assoc. repeat split; congruence.
Qed.

(** X16.  When the injected fault strikes on every draw, no item can succeed,
    whatever the batch holds: on a processor with counter 0 and a budget
    between 1 and the size of the batch, [process_data] fails on the first
    [max_errors] items, stops, and returns the empty list; it creates no
    record and leaves the store as it was. *)
Theorem constant_faults_return_nothing (σ : state) (data : list pyval) :
  all_faults random_src →
  error_count σ = 0 →
  1 ≤ max_errors σ ≤ Z.of_nat (length data) →
  let run := process_data random_src time_src σ data in
  snd run = inr []
  ∧ error_count (fst run) = max_errors σ
  ∧ log (fst run) = log σ ++ map Failed (seq 0 (Z.to_nat (max_errors σ))) ++ [Stopped]
  ∧ heap (fst run) = heap σ.
Proof.
  intros Hall Hzero Hbudget run. subst run. unfold process_data.
  destruct (process_loop_all_faults (Z.to_nat (max_errors σ) - 1) Hall data σ 0%nat [])
    as (σ' & Hrun & Hh & He & Hm & Ht & Hl); [lia | lia |].
  rewrite Hrun.
  replace (S (Z.to_nat (max_errors σ) - 1)) with (Z.to_nat (max_errors σ)) in Hl by lia.
  destruct data as [| item rest]; [simpl in Hbudget; lia |].
  cbn [length Nat.eqb fst snd]. auto.
Qed.

End Facts.

Lemma constant_faults_return_nothing_witness :
  let run := process_data faulty_random ticking_clock (new store0)
               [VRef 0%nat; VRef 2%nat; VRef 0%nat; VRef 2%nat; VRef 0%nat; VRef 2%nat] in
  snd run = inr []
  ∧ error_count (fst run) = 5
  ∧ log (fst run) = [Failed 0; Failed 1; Failed 2; Failed 3; Failed 4; Stopped]
  ∧ heap (fst run) = store0.
Proof.
  apply (constant_faults_return_nothing faulty_random ticking_clock (new store0)
           [VRef 0%nat; VRef 2%nat; VRef 0%nat; VRef 2%nat; VRef 0%nat; VRef 2%nat]).
  - intros i. reflexivity.
  - reflexivity.
  - simpl. lia.
Defined.

Lemma store0_allocated : Forall (allocated store0) batch0.
Proof. repeat (constructor; [intros l Hl; inversion Hl; simpl; lia |]); constructor. Qed.

Lemma returned_records_keep_their_entries_witness :
  ∃ l' d' l d,
    VRef 3%nat = VRef l'
    ∧ heap (fst (process_data steady_random ticking_clock (new store0) batch0)) !! l'
      = Some (ODict d')
    ∧ VRef l ∈ batch0 ∧ heap (new store0) !! l = Some (ODict d)
    ∧ is_Some (d !! "id") ∧ d' !! "id" = d !! "id"
    ∧ d' !! "status" = Some status_processed
    ∧ is_Some (d' !! "processed_at")
    ∧ ∀ key, key ≠ "status" → key ≠ "processed_at" → d' !! key = d !! key.
Proof.
  apply (returned_records_keep_their_entries steady_random ticking_clock
           (new store0) batch0 [VRef 3%nat; VRef 4%nat] store0_allocated eq_refl).
  apply list_elem_of_here.
Defined.

Lemma timestamps_follow_the_clock_witness :
  stamp_of (heap (fst (process_data steady_random ticking_clock (new store0) batch0)))
    (VRef 4%nat)
  = Some (ticking_clock 1).
Proof.
  exact (proj1 (timestamps_follow_the_clock steady_random ticking_clock
                  (new store0) batch0 [VRef 3%nat; VRef 4%nat] store0_allocated eq_refl)
           1%nat (VRef 4%nat) eq_refl).
Defined.

Lemma exhausted_budget_stops_at_first_failure_witness :
  ∃ out,
    snd (process_data steady_random ticking_clock exhausted batch0) = inr out
    ∧ length out = 1%nat.
Proof.
  destruct (exhausted_budget_stops_at_first_failure steady_random ticking_clock
              exhausted batch0 no_faults_steady store0_allocated) as (out & Hout & Hlen & _).
  - reflexivity.
  - discriminate.
  - exists out. split; [exact Hout | exact Hlen].
Defined.

End ProcessorFacts.
